(** * svd2bitmask: layout normalisation, naming and rendering

    A shallow embedding of [svd2bitmask.py].  Python integers are [Z],
    Python strings are [string] (ASCII only: the Unicode classes of
    [str.strip], [\d] and [\w] are restricted to their ASCII members),
    lists are [list], objects are records, and an uncaught exception is a
    value of [exn] carried by [result].  *)

From Stdlib Require Import ZArith List String Ascii Bool Lia Permutation.
Import ListNotations.
Local Open Scope string_scope.
Local Open Scope Z_scope.

(** ** Python built-ins used by the program *)

Module Py.

(** The exceptions the program can raise and never catches. *)
Inductive exn : Type :=
| NameError (name : string)
| AttributeError
| TypeError
| ValueError.

Inductive result (A : Type) : Type :=
| Ok (a : A)
| Raise (e : exn).
Arguments Ok {A} a.
Arguments Raise {A} e.

Definition chars (s : string) : list ascii := list_ascii_of_string s.
Definition str (l : list ascii) : string := string_of_list_ascii l.

Definition code (c : ascii) : nat := nat_of_ascii c.

Definition between (lo hi : nat) (c : ascii) : bool :=
  (Nat.leb lo (code c) && Nat.leb (code c) hi)%bool.

(** [str.isspace] on ASCII: TAB..CR, FS..US and the blank. *)
Definition is_space (c : ascii) : bool :=
  (between 9 13 c || between 28 32 c)%bool.

(** [\d] on ASCII: the digits 0 to 9. *)
Definition is_digit (c : ascii) : bool := between 48 57 c.

(** [\w] on ASCII: letters, digits and the underscore.  Outside ASCII
    the classes of Python are wider; the strings of the model are
    taken to be ASCII. *)
Definition is_word (c : ascii) : bool :=
  (between 97 122 c || between 65 90 c || is_digit c || Nat.eqb (code c) 95)%bool.

Fixpoint lstrip_chars (l : list ascii) : list ascii :=
  match l with
  | c :: l' => if is_space c then lstrip_chars l' else l
  | [] => []
  end.

Definition rstrip_chars (l : list ascii) : list ascii :=
  rev (lstrip_chars (rev l)).

(** [str.strip()] *)
Definition strip (s : string) : string :=
  str (rstrip_chars (lstrip_chars (chars s))).

(** Line boundaries of [str.splitlines()] on ASCII: LF, CR, CR LF, VT,
    FF, FS, GS, RS. *)
Definition is_linebreak (c : ascii) : bool :=
  (between 10 13 c || between 28 30 c)%bool.

Fixpoint splitlines_chars (cur : list ascii) (l : list ascii)
  : list (list ascii) :=
  match l with
  | [] => match cur with [] => [] | _ => [rev cur] end
  | c :: l' =>
      if Nat.eqb (code c) 13 then
        match l' with
        | d :: l'' =>
            if Nat.eqb (code d) 10
            then rev cur :: splitlines_chars [] l''
            else rev cur :: splitlines_chars [] l'
        | [] => rev cur :: splitlines_chars [] l'
        end
      else if is_linebreak c then rev cur :: splitlines_chars [] l'
      else splitlines_chars (c :: cur) l'
  end.

(** [str.splitlines()] *)
Definition splitlines (s : string) : list string :=
  map str (splitlines_chars [] (chars s)).

(** Value of a digit in a base up to 16, as [int()] reads it. *)
Definition digit_val (base : Z) (c : ascii) : option Z :=
  let v :=
    if is_digit c then Some (Z.of_nat (code c) - 48)
    else if between 97 102 c then Some (Z.of_nat (code c) - 87)
    else if between 65 70 c then Some (Z.of_nat (code c) - 55)
    else None in
  match v with
  | Some d => if d <? base then Some d else None
  | None => None
  end.

Definition is_underscore (c : ascii) : bool := Nat.eqb (code c) 95.

(** The digits that follow a first digit; a single underscore may sit
    between two digits. *)
Fixpoint int_digits (base acc : Z) (l : list ascii) : option Z :=
  match l with
  | [] => Some acc
  | c :: l' =>
      if is_underscore c then
        match l' with
        | d :: l'' =>
            match digit_val base d with
            | Some v => int_digits base (acc * base + v) l''
            | None => None
            end
        | [] => None
        end
      else
        match digit_val base c with
        | Some v => int_digits base (acc * base + v) l'
        | None => None
        end
  end.

Definition int_body (base : Z) (l : list ascii) : option Z :=
  match l with
  | c :: l' =>
      match digit_val base c with
      | Some v => int_digits base v l'
      | None => None
      end
  | [] => None
  end.

(** An optional [0x] or [0X] prefix, read when the base is 16; an
    underscore may follow it. *)
Definition int_prefixed (base : Z) (l : list ascii) : option Z :=
  match l with
  | z :: x :: l' =>
      if ((base =? 16) && Nat.eqb (code z) 48
          && (Nat.eqb (code x) 120 || Nat.eqb (code x) 88))%bool
      then
        match l' with
        | u :: l'' => if is_underscore u then int_body base l''
                      else int_body base l'
        | [] => None
        end
      else int_body base l
  | _ => int_body base l
  end.

Definition int_signed (base : Z) (l : list ascii) : option Z :=
  match l with
  | c :: l' =>
      if Nat.eqb (code c) 45 then option_map Z.opp (int_prefixed base l')
      else if Nat.eqb (code c) 43 then int_prefixed base l'
      else int_prefixed base l
  | [] => None
  end.

(** [int(s, base)] for base 10 or 16; a string that is no literal
    raises [ValueError]. *)
Definition int (s : string) (base : Z) : result Z :=
  match int_signed base (chars (strip s)) with
  | Some z => Ok z
  | None => Raise ValueError
  end.

Definition digit_char (d : N) : ascii :=
  nth (N.to_nat d) (chars "0123456789ABCDEF") "?"%char.

Fixpoint to_digits (fuel : nat) (base n : N) (acc : list ascii)
  : list ascii :=
  match fuel with
  | O => acc
  | S fuel' =>
      let acc' := digit_char (n mod base) :: acc in
      if (n / base =? 0)%N then acc'
      else to_digits fuel' base (n / base) acc'
  end.

Definition format_int (base : N) (z : Z) : string :=
  let n := Z.abs_N z in
  let body := str (to_digits (S (N.size_nat n)) base n []) in
  if z <? 0 then "-" ++ body else body.

(** [str(z)], also what [f'{z}'] inserts. *)
Definition str_int (z : Z) : string := format_int 10 z.

(** [f'{z:X}'] *)
Definition format_X (z : Z) : string := format_int 16 z.

Definition lower_char (c : ascii) : ascii :=
  if between 65 90 c then ascii_of_nat (code c + 32) else c.

Definition upper_char (c : ascii) : ascii :=
  if between 97 122 c then ascii_of_nat (code c - 32) else c.

Definition lower (s : string) : string := str (map lower_char (chars s)).
Definition upper (s : string) : string := str (map upper_char (chars s)).

(** [len(s)] *)
Definition len (s : string) : Z := Z.of_nat (String.length s).

End Py.

Import Py.

(** ** The fragment of [re] the program uses

    [re.match] anchors at the start of the string and backtracks; a
    greedy [+] tries the longest repetition first. *)

Module Re.

Inductive atom : Type :=
| Lit (c : ascii)
| Digit  (* \d *)
| Word.  (* \w *)

Inductive node : Type :=
| One (a : atom)
| Plus (a : atom)   (* a+, greedy *)
| Open              (* ( *)
| Close             (* ) *)
| Eol.              (* $ *)

Definition regex : Type := list node.

Definition accepts (a : atom) (c : ascii) : bool :=
  match a with
  | Lit d => Ascii.eqb d c
  | Digit => is_digit c
  | Word => is_word c
  end.

(** Length of the longest prefix of [l] made of characters [a]
    accepts. *)
Fixpoint run_length (a : atom) (l : list ascii) : nat :=
  match l with
  | c :: l' => if accepts a c then S (run_length a l') else O
  | [] => O
  end.

(** Tries [k], [k-1], ..., [1] and keeps the first success. *)
Fixpoint longest_first {X : Type} (k : nat) (try : nat -> option X)
  : option X :=
  match k with
  | O => None
  | S k' =>
      match try k with
      | Some x => Some x
      | None => longest_first k' try
      end
  end.

(** Characters consumed inside the group that is open, if one is. *)
Definition extend (cur : option (list ascii)) (l : list ascii)
  : option (list ascii) :=
  option_map (fun g => (g ++ l)%list) cur.

(** [$] matches at the end and before a final newline. *)
Definition at_eol (l : list ascii) : bool :=
  match l with
  | [] => true
  | [c] => Nat.eqb (code c) 10
  | _ => false
  end.

(** [go r cur caps l]: match [r] against [l]; [caps] are the groups
    closed so far, last first.  The result lists the groups in
    order: [m[1]], [m[2]], ... *)
Fixpoint go (r : regex) (cur : option (list ascii))
  (caps : list (list ascii)) (l : list ascii) : option (list string) :=
  match r with
  | [] => Some (map str (rev caps))
  | One a :: r' =>
      match l with
      | c :: l' =>
          if accepts a c then go r' (extend cur [c]) caps l' else None
      | [] => None
      end
  | Plus a :: r' =>
      longest_first (run_length a l)
        (fun k => go r' (extend cur (firstn k l)) caps (skipn k l))
  | Open :: r' => go r' (Some []) caps l
  | Close :: r' =>
      match cur with
      | Some g => go r' None (g :: caps) l
      | None => None
      end
  | Eol :: r' => if at_eol l then go r' cur caps l else None
  end.

(** [re.match(r, s)]: [None], or the groups of the match. *)
Definition match_ (r : regex) (s : string) : option (list string) :=
  go r None [] (chars s).

End Re.


(** ** The fragment of [xml.etree.ElementTree] the program uses *)

Module Xml.

#[warnings="-register-all"] Inductive Element : Type :=
| Elem (tag : string) (attrib : list (string * string))
       (text : option string) (children : list Element).

Definition tag (e : Element) : string :=
  match e with Elem t _ _ _ => t end.
Definition attrib (e : Element) : list (string * string) :=
  match e with Elem _ a _ _ => a end.
Definition text (e : Element) : option string :=
  match e with Elem _ _ t _ => t end.
(** Iterating over an element yields its children in document order. *)
Definition children (e : Element) : list Element :=
  match e with Elem _ _ _ c => c end.

(** [e.find(name)]: the first child with that tag, or [None]. *)
Definition find (name : string) (e : Element) : option Element :=
  List.find (fun c => String.eqb (tag c) name) (children e).

End Xml.

(** ** [list.sort()]

    Python's sort is stable and compares with [__lt__] only.  A stable
    sort is determined by the order it sorts on, so the insertion sort
    below computes the list [list.sort()] leaves. *)

Section Sort.
Context {A : Type} (lt : A -> A -> bool).

Fixpoint insert (x : A) (l : list A) : list A :=
  match l with
  | [] => [x]
  | y :: l' => if lt y x then y :: insert x l' else x :: y :: l'
  end.

Definition sort (l : list A) : list A := fold_right insert [] l.
End Sort.

(** [l[-1]] *)
Definition last_opt {A : Type} (l : list A) : option A :=
  match rev l with x :: _ => Some x | [] => None end.

(** The comparison loop of the [__eq__] methods: equal lengths, then
    index by index. *)
Definition list_eq {A : Type} (eq : A -> A -> bool) (l1 l2 : list A) : bool :=
  if negb (Nat.eqb (List.length l1) (List.length l2)) then false
  else forallb (fun ab => eq (fst ab) (snd ab)) (combine l1 l2).

(** ** Data model *)

Module Field.

Record t : Type := new
  { name : string;
    description : string;
    offset : Z;
    width : Z;
    readonly : bool }.

Definition lt (self other : t) : bool := offset self <? offset other.

Definition eq (self other : t) : bool :=
  if negb (String.eqb (name self) (name other)) then false
  else if negb (String.eqb (description self) (description other)) then false
  else if negb (offset self =? offset other) then false
  else if negb (width self =? width other) then false
  else if negb (Bool.eqb (readonly self) (readonly other)) then false
  else true.

End Field.

Module Register.

Record t : Type := new
  { size : Z;
    offset : Z;
    name : string;
    description : string;
    type : string;
    fields : list Field.t;
    reserved : bool;
    reset : Z }.

(** [Register(size, offset, reserved=True)]: the other attributes take
    their defaults. *)
Definition new_reserved (size offset : Z) : t :=
  new size offset "" "" "UNKNOWN" [] true 0.

Definition lt (self other : t) : bool := offset self <? offset other.

Definition eq (self other : t) : bool :=
  if negb (size self =? size other) then false
  else if negb (offset self =? offset other) then false
  else if negb (String.eqb (name self) (name other)) then false
  else if negb (String.eqb (description self) (description other)) then false
  else if negb (String.eqb (type self) (type other)) then false
  else if negb (list_eq Field.eq (fields self) (fields other)) then false
  else if negb (Bool.eqb (reserved self) (reserved other)) then false
  else if negb (reset self =? reset other) then false
  else true.

End Register.

Module Peripheral.

Record t : Type := Build
  { name : string;
    realname : string;
    description : string;
    registers : list Register.t;
    path : string }.

(** [r'(\w+)\d+$'] *)
Definition name_re : Re.regex :=
  [Re.Open; Re.Plus Re.Word; Re.Close; Re.Plus Re.Digit; Re.Eol].

(** The canonical name [__init__] derives from [realname]. *)
Definition canonical_name (realname : string) : string :=
  match Re.match_ name_re realname with
  | Some m => nth 0 m ""
  | None => realname
  end.

(** [Peripheral(realname, description, registers)] *)
Definition new (realname description : string)
  (registers : list Register.t) : t :=
  {| name := canonical_name realname;
     realname := realname;
     description := description;
     registers := registers;
     path := "" |}.

Definition set_path (p : t) (path' : string) : t :=
  {| name := name p; realname := realname p;
     description := description p; registers := registers p;
     path := path' |}.

Definition lt (self other : t) : bool := String.ltb (name self) (name other).

Definition eq (self other : t) : bool :=
  if negb (String.eqb (name self) (name other)) then false
  else if negb (String.eqb (description self) (description other)) then false
  else list_eq Register.eq (registers self) (registers other).

Definition register_count (self : t) : Z :=
  fold_left (fun count _ => count + 1) (registers self) 0.

Definition field_count (self : t) : Z :=
  fold_left
    (fun count register =>
       fold_left (fun count _ => count + 1) (Register.fields register) count)
    (registers self) 0.

End Peripheral.

(** ** Layout normaliser *)

(** The reserved field the normaliser synthesizes:
    [Field('', 'Reserved', offset, width, True)]. *)
Definition reserved_field (offset width : Z) : Field.t :=
  Field.new "" "Reserved" offset width true.

(** The body of the gap scan over the fields, at index [i]. *)
Definition field_gap_step (fields : list Field.t) (i : nat) : list Field.t :=
  match nth_error fields i, nth_error fields (i + 1) with
  | Some fi, Some fi1 =>
      let start := Field.offset fi in
      let end_ := start + Field.width fi in
      let start_next := Field.offset fi1 in
      let diff := start_next - end_ in
      if 0 <? diff then (fields ++ [reserved_field end_ diff])%list
      else fields
  | _, _ => fields
  end.

(** The gap scan over the fields.  [range(len(fields) - 1)] is computed
    once, before the loop; the fields the loop appends land behind the
    indices it reads. *)
Definition fill_field_gaps (fields : list Field.t) : list Field.t :=
  fold_left field_gap_step (seq 0 (List.length fields - 1)) fields.

(** Lines 444-485 of [load_registers]: what happens to the parsed
    fields of one register. *)
Definition normalize_fields (fields : list Field.t) : list Field.t :=
  if Nat.ltb 0 (List.length fields) then
    let fields := sort Field.lt fields in
    let fields :=
      match fields with
      | f0 :: _ =>
          if negb (Field.offset f0 =? 0) then
            let start_next := Field.offset f0 in
            reserved_field 0 (start_next - 1) :: fields
          else fields
      | [] => fields
      end in
    let fields := fill_field_gaps fields in
    let fields := sort Field.lt fields in
    match last_opt fields with
    | Some fl =>
        if negb (Field.offset fl + Field.width fl =? 32) then
          let start := Field.offset fl in
          let end_ := start + Field.width fl in
          (fields ++ [reserved_field end_ (32 - end_)])%list
        else fields
    | None => fields
    end
  else fields.

(** The body of the gap scan over the registers, at index [i]. *)
Definition register_gap_step (registers : list Register.t) (i : nat)
  : list Register.t :=
  match nth_error registers i, nth_error registers (i + 1) with
  | Some ri, Some ri1 =>
      let start := Register.offset ri in
      let end_ := start + Register.size ri in
      let start_next := Register.offset ri1 in
      let diff := start_next - end_ in
      if 0 <? diff
      then (registers ++ [Register.new_reserved diff end_])%list
      else registers
  | _, _ => registers
  end.

(** The gap scan over the registers, as for the fields. *)
Definition fill_register_gaps (registers : list Register.t)
  : list Register.t :=
  fold_left register_gap_step (seq 0 (List.length registers - 1)) registers.

(** Lines 330-356 of [load_peripheral]: what happens to the parsed
    registers of one peripheral. *)
Definition normalize_registers (registers : list Register.t)
  : list Register.t :=
  let registers := sort Register.lt registers in
  let registers :=
    match registers with
    | r0 :: _ =>
        if negb (Register.offset r0 =? 0) then
          let start_next := Register.offset r0 in
          Register.new_reserved 0 (start_next - 1) :: registers
        else registers
    | [] => registers
    end in
  let registers := fill_register_gaps registers in
  sort Register.lt registers.

(** ** Document adapter *)

Definition strip_text (text : string) : string :=
  let lines := splitlines text in
  if Nat.ltb 1 (List.length lines) then
    Py.strip
      (fold_left (fun output line => output ++ Py.strip line ++ " ") lines "")
  else Py.strip text.

(** [get_xml_text(name, xml)] with the defaults [default=''] and
    [fullStrip=True], the only way the program calls it. *)
Definition get_xml_text (name : string) (xml : Xml.Element) : string :=
  match Xml.find name xml with
  | None => ""
  | Some text_xml =>
      match Xml.text text_xml with
      | None => ""
      | Some text => strip_text text
      end
  end.

(** Control inside the body of [load_registers]: go on with a value,
    leave the function with [return r], or raise. *)
Inductive flow (R A : Type) : Type :=
| Next (a : A)
| Return (r : R)
| Throw (e : exn).
Arguments Next {R A} a.
Arguments Return {R A} r.
Arguments Throw {R A} e.

Definition bind {R A B : Type} (m : flow R A) (k : A -> flow R B)
  : flow R B :=
  match m with
  | Next a => k a
  | Return r => Return r
  | Throw e => Throw e
  end.

Notation "x <- m ;; k" := (bind m (fun x => k))
  (at level 100, m at next level, right associativity).

Definition lift {R A : Type} (r : result A) : flow R A :=
  match r with
  | Ok a => Next a
  | Raise e => Throw e
  end.

(** A [for] loop that collects one value per element, in order, and
    stops at the first [return] or exception. *)
Fixpoint for_each {R A B : Type} (body : A -> flow R B) (l : list A)
  : flow R (list B) :=
  match l with
  | [] => Next []
  | a :: l' =>
      b <- body a ;;
      bs <- for_each body l' ;;
      Next (b :: bs)
  end.

(** [x.text.strip()]: [AttributeError] when the element has no text. *)
Definition text_strip {R : Type} (x : Xml.Element) : flow R string :=
  match Xml.text x with
  | Some text => Next (Py.strip text)
  | None => Throw AttributeError
  end.

(** The names [load_registers] assigns: parameters and locals. *)
Definition load_registers_locals : list string :=
  ["peripheral_name"; "registers"; "verbose"; "output"; "register";
   "fields"; "name_xml"; "description_xml"; "size_xml"; "offset_xml";
   "reset_xml"; "fields_xml"; "type"; "field"; "field_name_xml";
   "field_description_xml"; "bitOffset_xml"; "bitWidth_xml";
   "field_offset"; "field_width"; "bitRange_xml"; "m"; "access_xml";
   "readonly"; "start_next"; "i"; "start"; "end"; "diff"].

(** The names the module binds at top level. *)
Definition module_globals : list string :=
  ["argparse"; "os"; "ET"; "re"; "difflib"; "Peripheral"; "Register";
   "Field"; "strip_text"; "get_xml_text"; "print_registers";
   "print_peripheral"; "load_peripheral"; "load_registers"; "main";
   "__name__"].

(** The built-in names the program refers to. *)
Definition builtins : list string :=
  ["print"; "int"; "len"; "range"; "list"; "filter"; "next"; "open";
   "True"; "False"; "None"; "FileNotFoundError"; "IsADirectoryError"].

(** Reading a variable inside [load_registers]: [NameError] when no
    scope binds it. *)
Definition read_name {R : Type} (x : string) : flow R unit :=
  if existsb (String.eqb x)
       (load_registers_locals ++ module_globals ++ builtins)%list
  then Next tt
  else Throw (NameError x).

(** A value that is a [str] in one branch and an [int] in the other. *)
Inductive str_or_int : Type :=
| IsStr (s : string)
| IsInt (z : Z).

(** [int(x)] *)
Definition int_of {R : Type} (x : str_or_int) : flow R Z :=
  match x with
  | IsStr s => lift (Py.int s 10)
  | IsInt z => Next z
  end.

(** [r'\[(\d+):(\d+)\]'] *)
Definition bitRange_re : Re.regex :=
  [Re.One (Re.Lit "["); Re.Open; Re.Plus Re.Digit; Re.Close;
   Re.One (Re.Lit ":"); Re.Open; Re.Plus Re.Digit; Re.Close;
   Re.One (Re.Lit "]")].

(** The [print(f'Failed to load SVD: ... {peripheral_name}.{name}.{field_name}')]
    of both failure branches: the f-string reads three variables, left
    to right, before anything is printed. *)
Definition print_failure {R : Type} : flow R unit :=
  _ <- read_name "peripheral_name" ;;
  _ <- read_name "name" ;;
  _ <- read_name "field_name" ;;
  Next tt.

(** Lines 411-426: offset and width from the text of a [bitRange]
    element. *)
Definition load_bitRange (bitRange_text : string)
  : flow (list Register.t) (str_or_int * str_or_int) :=
  match Re.match_ bitRange_re bitRange_text with
  | None => Throw AttributeError  (* [m.groups()] on [None] *)
  | Some m =>
      if Nat.ltb (List.length m) 2 then
        _ <- print_failure ;;
        Return []
      else
        m1 <- lift (Py.int (nth 0 m "") 10) ;;
        m2 <- lift (Py.int (nth 1 m "") 10) ;;
        m1' <- lift (Py.int (nth 0 m "") 10) ;;
        Next (IsInt m1, IsInt (m2 - m1' + 1))
  end.

(** Lines 398-441: one [field] element. *)
Definition load_field (field : Xml.Element)
  : flow (list Register.t) Field.t :=
  let field_name_xml := get_xml_text "name" field in
  let field_description_xml := get_xml_text "description" field in
  let bitOffset_xml := Xml.find "bitOffset" field in
  let bitWidth_xml := Xml.find "bitWidth" field in
  bits <-
    match bitOffset_xml, bitWidth_xml with
    | Some bitOffset_xml, Some bitWidth_xml =>
        field_offset <- text_strip bitOffset_xml ;;
        field_width <- text_strip bitWidth_xml ;;
        Next (IsStr field_offset, IsStr field_width)
    | _, _ =>
        match Xml.find "bitRange" field with
        | None =>
            _ <- print_failure ;;
            Return []
        | Some bitRange_xml =>
            bitRange_text <- text_strip bitRange_xml ;;
            load_bitRange bitRange_text
        end
    end ;;
  let field_offset := fst bits in
  let field_width := snd bits in
  readonly <-
    match Xml.find "access" field with
    | Some access_xml =>
        access_text <- text_strip access_xml ;;
        Next (String.eqb access_text "read-only")
    | None => Next false
    end ;;
  offset <- int_of field_offset ;;
  width <- int_of field_width ;;
  Next (Field.new field_name_xml field_description_xml offset width readonly).

(** Lines 383-393: the C type of a register of a given size. *)
Definition register_type (size_xml : Z) : string :=
  if size_xml =? 64 then "uint64_t"
  else if size_xml =? 32 then "uint32_t"
  else if size_xml =? 16 then "uint16_t"
  else if size_xml =? 8 then "uint8_t"
  else "UNKNOWN".

(** Lines 365-488: one [register] element. *)
Definition load_register (register : Xml.Element)
  : flow (list Register.t) Register.t :=
  let name_xml := get_xml_text "name" register in
  let description_xml := get_xml_text "description" register in
  size_xml <- lift (Py.int (get_xml_text "size" register) 16) ;;
  offset_xml <- lift (Py.int (get_xml_text "addressOffset" register) 16) ;;
  let reset_xml := get_xml_text "resetValue" register in
  reset_xml <-
    (if String.eqb reset_xml "" then Next 0
     else lift (Py.int reset_xml 16)) ;;
  let fields_xml := Xml.find "fields" register in
  let type := register_type size_xml in
  fields <-
    match fields_xml with
    | Some fields_xml => for_each load_field (Xml.children fields_xml)
    | None => Next []
    end ;;
  let fields := normalize_fields fields in
  Next (Register.new size_xml offset_xml name_xml description_xml type
          fields false reset_xml).

(** [load_registers(peripheral_name, registers)]; [registers] is what
    [peripheral.find('registers')] returned, so it may be [None], and
    iterating over [None] raises [TypeError]. *)
Definition load_registers (peripheral_name : string)
  (registers : option Xml.Element) : result (list Register.t) :=
  match registers with
  | None => Raise TypeError
  | Some registers =>
      match for_each load_register (Xml.children registers) with
      | Next output => Ok output
      | Return r => Ok r
      | Throw e => Raise e
      end
  end.

(** [load_peripheral(peripheral)]: [Ok None] is the [return None] of
    line 327. *)
Definition load_peripheral (peripheral : Xml.Element)
  : result (option Peripheral.t) :=
  let name_xml := get_xml_text "name" peripheral in
  let description_xml := get_xml_text "description" peripheral in
  let registers_xml := Xml.find "registers" peripheral in
  match load_registers name_xml registers_xml with
  | Raise e => Raise e
  | Ok registers =>
      match registers with
      | [] => Ok None
      | _ :: _ =>
          let registers := normalize_registers registers in
          Ok (Some (Peripheral.new name_xml description_xml registers))
      end
  end.

(** ** Renderer *)

Definition nl : string := String (ascii_of_nat 10) "".
Definition tab : string := String (ascii_of_nat 9) "".

(** What [print] has written so far, one entry per call. *)
Definition stdout : Type := list string.

Definition print (s : string) (out : stdout) : stdout := (out ++ [s])%list.

Definition rbind {A B : Type} (m : result A) (k : A -> result B)
  : result B :=
  match m with
  | Ok a => k a
  | Raise e => Raise e
  end.

Notation "'let*' x := m 'in' k" := (rbind m (fun x => k))
  (at level 10, x pattern, m at level 100, k at level 200).

(** [range(n)] *)
Definition range (n : Z) : list Z := map Z.of_nat (seq 0 (Z.to_nat n)).

(** [1 << n]; Python raises [ValueError] on a negative shift count. *)
Definition shl1 (n : Z) : result Z :=
  if n <? 0 then Raise ValueError else Ok (Z.shiftl 1 n).

(** [for i in range(field.width): mask |= (1 << (i + field.offset))] *)
Definition or_field_bits (mask : Z) (field : Field.t) : result Z :=
  fold_left
    (fun mask i =>
       let* mask := mask in
       let* bit := shl1 (i + Field.offset field) in
       Ok (Z.lor mask bit))
    (range (Field.width field)) (Ok mask).

(** The mask loop over all the named fields of a register. *)
Definition or_fields_bits (mask : Z) (filtered : list Field.t) : result Z :=
  fold_left
    (fun mask field =>
       let* mask := mask in
       or_field_bits mask field)
    filtered (Ok mask).

(** Lines 195-221: the bit-field member of one field. *)
Definition field_member (register : Register.t) (field : Field.t) : string :=
  let start := Field.offset field in
  let end_ := Field.offset field + Field.width field - 1 in
  let position :=
    if start =? end_ then "Bit " ++ str_int start
    else "Bits " ++ str_int start ++ "-" ++ str_int end_ in
  tab ++ tab
  ++ (if Field.readonly field then "const " else "")
  ++ Register.type register
  ++ (if 0 <? len (Field.name field) then " " ++ Field.name field else "")
  ++ ": " ++ str_int (Field.width field) ++ ";" ++ tab ++ "// "
  ++ position ++ ": " ++ Field.description field ++ nl.

(** [{peripheral.name}_{register.name}_{field.name}] *)
Definition macro_name (peripheral : Peripheral.t) (register : Register.t)
  (field : Field.t) : string :=
  Peripheral.name peripheral ++ "_" ++ Register.name register ++ "_"
  ++ Field.name field.

Definition Pos_line (peripheral : Peripheral.t) (register : Register.t)
  (field : Field.t) : string :=
  "#define " ++ macro_name peripheral register field ++ "_Pos" ++ tab
  ++ "((" ++ Register.type register ++ ")"
  ++ str_int (Field.offset field) ++ ")" ++ nl.

(** Line 243: the mask of a field one bit wide. *)
Definition bit_line (peripheral : Peripheral.t) (register : Register.t)
  (field : Field.t) : string :=
  "#define " ++ macro_name peripheral register field ++ tab
  ++ "((" ++ Register.type register ++ ")(1 << "
  ++ macro_name peripheral register field ++ "_Pos))" ++ nl.

(** Line 252: the mask of any other field; [mask] is what the loop of
    lines 248-250 left. *)
Definition Msk_line (peripheral : Peripheral.t) (register : Register.t)
  (field : Field.t) (mask : Z) : string :=
  "#define " ++ macro_name peripheral register field ++ "_Msk" ++ tab
  ++ "((" ++ Register.type register ++ ")(0x" ++ format_X mask ++ " << "
  ++ macro_name peripheral register field ++ "_Pos))" ++ nl.

Definition Val_line (peripheral : Peripheral.t) (register : Register.t)
  (field : Field.t) : string :=
  "#define " ++ macro_name peripheral register field ++ "_Val(v)" ++ tab
  ++ "((" ++ Register.type register ++ ")(((v) & "
  ++ macro_name peripheral register field ++ "_Msk) >> "
  ++ macro_name peripheral register field ++ "_Pos))" ++ nl.

Definition ctor_line (peripheral : Peripheral.t) (register : Register.t)
  (field : Field.t) : string :=
  "#define " ++ macro_name peripheral register field ++ "(v)" ++ tab
  ++ "((" ++ Register.type register ++ ")(((v) << "
  ++ macro_name peripheral register field ++ "_Pos) & "
  ++ macro_name peripheral register field ++ "_Msk)" ++ nl.

(** Lines 239-254: the macros of one named field. *)
Definition field_macros (peripheral : Peripheral.t) (register : Register.t)
  (filtered : list Field.t) (field : Field.t) : result string :=
  if Field.width field =? 1 then
    Ok (Pos_line peripheral register field
        ++ bit_line peripheral register field
        ++ match last_opt filtered with
           | Some fl => if negb (Field.eq field fl) then nl else ""
           | None => ""
           end)
  else
    let* mask := or_field_bits 0 field in
    Ok (Pos_line peripheral register field
        ++ Msk_line peripheral register field mask
        ++ Val_line peripheral register field
        ++ ctor_line peripheral register field).

(** Lines 188-254: the text [union] of one register with fields. *)
Definition register_union (peripheral : Peripheral.t)
  (register : Register.t) : result string :=
  let union :=
    "// ---------- " ++ Peripheral.description peripheral ++ " "
    ++ Register.description register ++ " ----------" ++ nl in
  let union :=
    union ++ "typedef union" ++ nl ++ "{" ++ nl ++ tab ++ "struct" ++ nl
    ++ tab ++ "{" ++ nl in
  let union :=
    fold_left (fun union field => union ++ field_member register field)
      (Register.fields register) union in
  let union :=
    union ++ tab ++ "} bit;" ++ nl ++ tab ++ Register.type register
    ++ " reg;" ++ nl ++ "} " ++ Peripheral.name peripheral ++ "_"
    ++ Register.name register ++ "_t;" ++ nl ++ nl in
  let union :=
    union ++ "#define " ++ Peripheral.name peripheral ++ "_"
    ++ Register.name register ++ "_RESETVALUE" ++ tab ++ "(("
    ++ Register.type register ++ ")0x" ++ format_X (Register.reset register)
    ++ ")" ++ nl in
  let filtered :=
    filter (fun field => 0 <? len (Field.name field))
      (Register.fields register) in
  let* mask := or_fields_bits 0 filtered in
  let union :=
    union ++ "#define " ++ Peripheral.name peripheral ++ "_"
    ++ Register.name register ++ "_Mask" ++ tab ++ "(("
    ++ Register.type register ++ ")0x" ++ format_X mask ++ ")" ++ nl ++ nl in
  fold_left
    (fun union field =>
       let* union := union in
       let* macros := field_macros peripheral register filtered field in
       Ok (union ++ macros))
    filtered (Ok union).

(** The body of the loop of [print_registers]: [state] is the list
    [output] so far and what has been printed. *)
Definition union_step (peripheral : Peripheral.t) (verbose : Z)
  (state : result (list string * stdout)) (register : Register.t)
  : result (list string * stdout) :=
  let* state := state in
  if Z.of_nat (List.length (Register.fields register)) <? 1 then Ok state
  else
    let* union := register_union peripheral register in
    let out := if 2 <? verbose then print union (snd state) else snd state in
    Ok ((fst state ++ [union])%list, out).

(** [print_registers(peripheral, verbose)], run with [out] already
    printed: the list it returns and what is printed afterwards. *)
Definition print_registers (peripheral : Peripheral.t) (verbose : Z)
  (out : stdout) : result (list string * stdout) :=
  fold_left (union_step peripheral verbose)
    (Peripheral.registers peripheral) (Ok ([], out)).

Definition reserved_member (register : Register.t) : string :=
  tab ++ tab ++ "const volatile uint32_t: "
  ++ str_int (Register.size register) ++ ";" ++ tab ++ "// Reserved" ++ nl.

Definition plain_member (register : Register.t) : string :=
  tab ++ tab ++ "volatile " ++ Register.type register ++ " "
  ++ Register.name register ++ ";" ++ tab ++ "// "
  ++ Register.description register ++ nl.

Definition union_member (peripheral : Peripheral.t) (register : Register.t)
  : string :=
  tab ++ tab ++ "volatile " ++ Peripheral.name peripheral ++ "_"
  ++ Register.name register ++ "_t " ++ Register.name register ++ ";"
  ++ tab ++ "// " ++ Register.description register ++ nl.

(** [print_peripheral(peripheral, verbose)], run with [out] already
    printed. *)
Definition print_peripheral (peripheral : Peripheral.t) (verbose : Z)
  (out : stdout) : string * stdout :=
  let struct := "#ifdef BITMASK" ++ nl in
  let struct := struct ++ tab ++ "typedef struct" ++ nl ++ tab ++ "{" ++ nl in
  let struct :=
    fold_left
      (fun struct register =>
         if Register.reserved register then
           struct ++ reserved_member register
         else if 0 <? Z.of_nat (List.length (Register.fields register)) then
           struct ++ union_member peripheral register
         else struct ++ plain_member register)
      (Peripheral.registers peripheral) struct in
  let struct :=
    struct ++ tab ++ "} " ++ Peripheral.name peripheral ++ "_t;" ++ nl in
  let struct := struct ++ "#else" ++ nl in
  let struct := struct ++ tab ++ "typedef struct" ++ nl ++ tab ++ "{" ++ nl in
  let struct :=
    fold_left
      (fun struct register =>
         if Register.reserved register then
           struct ++ reserved_member register
         else struct ++ plain_member register)
      (Peripheral.registers peripheral) struct in
  let struct :=
    struct ++ tab ++ "} " ++ Peripheral.name peripheral ++ "_t;" ++ nl in
  let struct := struct ++ "#endif" in
  (struct, if 2 <? verbose then print struct out else out).

(** ** The value of an emitted constant

    The object-like macros of a field are C constant expressions.
    [show] writes one as the renderer does; [typed] is its value and
    type by the rules of C: a literal has the first type it fits in, a
    shift is done in the promoted type of its left operand, and a cast
    to a fixed-width type reduces modulo two to that width.  An
    expression C gives no value to (a shift that overflows [int], a
    shift by the width or more) has none here.  [int] is 32 bits wide
    and the widest types 64, as on the targets of the generated
    headers. *)

Module C.

Inductive expr : Type :=
| Dec (z : Z)               (* 4 *)
| Hex (z : Z)               (* 0xF0 *)
| Ref (macro : string)      (* X_Pos *)
| Shl (a b : expr)          (* a << b *)
| Paren (e : expr)          (* (e) *)
| Cast (type : string) (e : expr).   (* ((type)e) *)

Fixpoint show (e : expr) : string :=
  match e with
  | Dec z => str_int z
  | Hex z => "0x" ++ format_X z
  | Ref macro => macro
  | Shl a b => show a ++ " << " ++ show b
  | Paren e => "(" ++ show e ++ ")"
  | Cast type e => "((" ++ type ++ ")" ++ show e ++ ")"
  end.

(** [#define name body] as the renderer writes it. *)
Definition define (name : string) (body : expr) : string :=
  "#define " ++ name ++ tab ++ show body ++ nl.

Definition type_bits (type : string) : option Z :=
  if String.eqb type "uint64_t" then Some 64
  else if String.eqb type "uint32_t" then Some 32
  else if String.eqb type "uint16_t" then Some 16
  else if String.eqb type "uint8_t" then Some 8
  else None.

(** An integer type: signed or not, and its width in bits. *)
Record ctype : Type := Ctype { signed : bool; bits : Z }.

Definition int_t : ctype := Ctype true 32.

(** A value with its type. *)
Record value : Type := Value { type_of : ctype; val : Z }.

(** The integer promotions: a type narrower than [int] becomes [int],
    which holds all its values. *)
Definition promote (t : ctype) : ctype :=
  if bits t <? 32 then int_t else t.

(** The type of a literal without suffix: the first it fits in, of
    [int], [long], [long long] when decimal, and of these and their
    unsigned versions in turn when hexadecimal.  [long] is 32 or 64
    bits wide; the width of the type chosen is the same either way. *)
Definition literal_type (hex : bool) (z : Z) : option ctype :=
  if z <? 2 ^ 31 then Some int_t
  else if (hex && (z <? 2 ^ 32))%bool then Some (Ctype false 32)
  else if z <? 2 ^ 63 then Some (Ctype true 64)
  else if (hex && (z <? 2 ^ 64))%bool then Some (Ctype false 64)
  else None.

(** [x << y]: the result has the promoted type of [x].  A negative
    count, a count of the width of that type or more, a negative [x]
    and a signed result that does not fit are undefined. *)
Definition shl (x y : value) : option value :=
  let t := promote (type_of x) in
  if ((val y <? 0) || (bits t <=? val y))%bool then None
  else if signed t then
    if ((val x <? 0) || (2 ^ (bits t - 1) <=? Z.shiftl (val x) (val y)))%bool
    then None
    else Some (Value t (Z.shiftl (val x) (val y)))
  else Some (Value t (Z.shiftl (val x) (val y) mod 2 ^ bits t)).

(** [env] gives the value of the macros defined before.  A negative
    [Dec] is written with a sign, the negation of a literal; a negative
    [Hex] is written [0x-...], which is no expression. *)
Fixpoint typed (env : string -> option value) (e : expr) : option value :=
  match e with
  | Dec z => option_map (fun t => Value t z) (literal_type false (Z.abs z))
  | Hex z =>
      if z <? 0 then None
      else option_map (fun t => Value t z) (literal_type true z)
  | Ref macro => env macro
  | Shl a b =>
      match typed env a, typed env b with
      | Some x, Some y => shl x y
      | _, _ => None
      end
  | Paren e => typed env e
  | Cast type e =>
      match type_bits type, typed env e with
      | Some n, Some x => Some (Value (Ctype false n) (val x mod 2 ^ n))
      | _, _ => None
      end
  end.

Definition eval (env : string -> option value) (e : expr) : option Z :=
  option_map val (typed env e).

End C.

Definition Pos_expr (register : Register.t) (field : Field.t) : C.expr :=
  C.Cast (Register.type register) (C.Dec (Field.offset field)).


Definition Msk_expr (peripheral : Peripheral.t) (register : Register.t)
  (field : Field.t) (mask : Z) : C.expr :=
  C.Cast (Register.type register)
    (C.Paren (C.Shl (C.Hex mask)
                (C.Ref (macro_name peripheral register field ++ "_Pos")))).

(** The macro environment after the [_Pos] line of a field. *)
Definition Pos_env (peripheral : Peripheral.t) (register : Register.t)
  (field : Field.t) : string -> option C.value :=
  fun macro =>
    if String.eqb macro (macro_name peripheral register field ++ "_Pos")
    then C.typed (fun _ => None) (Pos_expr register field)
    else None.

(** ** The peripheral loop of [main]

    Lines 590-644.  The model keeps what the loop accumulates and the
    files it writes; of the printing only the renderer's is kept, and
    the [duplicate/] directory is taken to exist. *)

Module Args.
Record t : Type := new
  { verbose : Z;
    output : string;
    prefix : string }.
End Args.

(** [os.path.join(a, b)] on a POSIX system. *)
Definition path_join (a b : string) : string :=
  if String.prefix "/" b then b
  else if (String.eqb a "" || String.eqb (substring (String.length a - 1) 1 a) "/")%bool
       then a ++ b
       else a ++ "/" ++ b.

Record run : Type := Run
  { derived : Z;
    peripherals : list Peripheral.t;
    duplicates : list (string * string);
    register_count : Z;
    field_count : Z;
    files : list (string * string);   (* path and content, as written *)
    out : stdout }.

Definition start (out : stdout) : run := Run 0 [] [] 0 0 [] out.

(** [len(attrib_xml) > 0 and 'derivedFrom' in attrib_xml] *)
Definition is_derived (peripheral_xml : Xml.Element) : bool :=
  ((0 <? Z.of_nat (List.length (Xml.attrib peripheral_xml)))
   && existsb (fun kv => String.eqb (fst kv) "derivedFrom")
        (Xml.attrib peripheral_xml))%bool.

(** Lines 629-641: the text written to the header of a peripheral. *)
Definition header (args : Args.t) (peripheral : Peripheral.t)
  (registers : list string) (struct : string) : string :=
  "#ifndef __" ++ upper (Args.prefix args) ++ "_"
  ++ Peripheral.name peripheral ++ "__" ++ nl
  ++ "#define __" ++ upper (Args.prefix args) ++ "_"
  ++ Peripheral.name peripheral ++ "__" ++ nl ++ nl
  ++ "#include <stdint.h>" ++ nl ++ nl
  ++ fold_left (fun text register => text ++ register ++ nl) registers ""
  ++ struct
  ++ nl ++ nl ++ "#endif" ++ nl.

(** One iteration of the loop; [output] is the local flag of [main]. *)
Definition main_step (args : Args.t) (output : bool) (st : run)
  (peripheral_xml : Xml.Element) : result run :=
  if is_derived peripheral_xml then
    Ok (Run (derived st + 1) (peripherals st) (duplicates st)
          (register_count st) (field_count st) (files st) (out st))
  else
    let* loaded := load_peripheral peripheral_xml in
    match loaded with
    | None => Ok st
    | Some peripheral =>
        let path :=
          path_join (Args.output args)
            (Args.prefix args ++ "_" ++ lower (Peripheral.name peripheral)
             ++ ".h") in
        let duplicate :=
          List.find
            (fun x => String.eqb (Peripheral.name x) (Peripheral.name peripheral))
            (peripherals st) in
        let routed :=
          match duplicate with
          | Some duplicate =>
              if negb (Peripheral.eq peripheral duplicate) then
                let path :=
                  path_join (Args.output args)
                    ("duplicate/" ++ Args.prefix args ++ "_"
                     ++ lower (Peripheral.realname peripheral) ++ ".h") in
                (path,
                 (duplicates st ++ [(Peripheral.path duplicate, path)])%list)
              else (path, duplicates st)
          | None => (path, duplicates st)
          end in
        let path := fst routed in
        let peripheral := Peripheral.set_path peripheral path in
        let peripherals := (peripherals st ++ [peripheral])%list in
        if output then
          let* rendered :=
            print_registers peripheral (Args.verbose args) (out st) in
          let printed :=
            print_peripheral peripheral (Args.verbose args) (snd rendered) in
          Ok (Run (derived st) peripherals (snd routed)
                (register_count st + Peripheral.register_count peripheral)
                (field_count st + Peripheral.field_count peripheral)
                (files st
                 ++ [(path, header args peripheral (fst rendered) (fst printed))])%list
                (snd printed))
        else
          Ok (Run (derived st) peripherals (snd routed)
                (register_count st) (field_count st) (files st) (out st))
    end.

(** [for peripheral_xml in peripherals_xml]: an exception ends the
    loop, and with it the run, since [main] catches none. *)
Fixpoint main_loop (args : Args.t) (output : bool) (st : run)
  (peripherals_xml : list Xml.Element) : result run :=
  match peripherals_xml with
  | [] => Ok st
  | peripheral_xml :: rest =>
      let* st := main_step args output st peripheral_xml in
      main_loop args output st rest
  end.

(** ** Properties the specification states *)

Definition field_end (f : Field.t) : Z := Field.offset f + Field.width f.

(** Two fields share no bit. *)
Definition disjoint (f g : Field.t) : Prop :=
  field_end f <= Field.offset g \/ field_end g <= Field.offset f.

Fixpoint pairwise_disjoint (fields : list Field.t) : Prop :=
  match fields with
  | [] => True
  | f :: rest => Forall (disjoint f) rest /\ pairwise_disjoint rest
  end.

(** The fields, in list order, tile [[lo, hi)]: each starts where the
    one before it ends. *)
Fixpoint tiles (lo hi : Z) (fields : list Field.t) : Prop :=
  match fields with
  | [] => lo = hi
  | f :: rest =>
      Field.offset f = lo /\ 0 <= Field.width f
      /\ tiles (field_end f) hi rest
  end.

(** The fields that contain bit [b]. *)
Definition holders (b : Z) (fields : list Field.t) : list Field.t :=
  filter (fun f => (Field.offset f <=? b) && (b <? field_end f))%bool fields.

(** No gap and no overlap: every field lies in [[lo, hi)] and every bit
    of the range lies in exactly one field. *)
Definition covers (lo hi : Z) (fields : list Field.t) : Prop :=
  Forall (fun f => lo <= Field.offset f /\ field_end f <= hi) fields
  /\ forall b, lo <= b < hi -> List.length (holders b fields) = 1%nat.

(** What the normaliser promises of the fields it adds. *)
Definition is_reserved (f : Field.t) : Prop :=
  Field.name f = "" /\ Field.readonly f = true.

(** The reserved field between two neighbours, if they leave a gap. *)
Definition gap (a b : Field.t) : list Field.t :=
  if 0 <? Field.offset b - field_end a
  then [reserved_field (field_end a) (Field.offset b - field_end a)]
  else [].

(** The fields the gap scan appends, in the order it appends them. *)
Fixpoint gaps (fields : list Field.t) : list Field.t :=
  match fields with
  | a :: rest =>
      match rest with
      | b :: _ => (gap a b ++ gaps rest)%list
      | [] => []
      end
  | [] => []
  end.

(** The fields with each gap filled in place. *)
Fixpoint interleave (fields : list Field.t) : list Field.t :=
  match fields with
  | a :: rest =>
      match rest with
      | b :: _ => (a :: gap a b ++ interleave rest)%list
      | [] => [a]
      end
  | [] => []
  end.

(** The sorted fields after lines 449-456: a reserved field in front
    when the first one does not start at bit 0. *)
Definition with_first_reserved (sorted : list Field.t) : list Field.t :=
  match sorted with
  | f0 :: _ =>
      if negb (Field.offset f0 =? 0)
      then reserved_field 0 (Field.offset f0 - 1) :: sorted
      else sorted
  | [] => sorted
  end.

(** The reserved field of lines 477-482, if the last field does not
    end at bit 32. *)
Definition trailing (fields : list Field.t) : list Field.t :=
  match last_opt fields with
  | Some fl =>
      if negb (field_end fl =? 32)
      then [reserved_field (field_end fl) (32 - field_end fl)]
      else []
  | None => []
  end.

(** Each field is at least zero wide and ends no later than the next
    one starts. *)
Fixpoint chained (fields : list Field.t) : Prop :=
  match fields with
  | a :: rest =>
      0 <= Field.width a
      /\ match rest with
         | b :: _ => field_end a <= Field.offset b
         | [] => True
         end
      /\ chained rest
  | [] => True
  end.

(** Ascending in the key the sort compares. *)
Fixpoint ascending {A : Type} (key : A -> Z) (l : list A) : Prop :=
  match l with
  | a :: rest => Forall (fun b => key a <= key b) rest /\ ascending key rest
  | [] => True
  end.

(** The number a string of decimal digits denotes. *)
Definition decimal (digits : list ascii) : Z :=
  fold_left (fun acc c => acc * 10 + (Z.of_nat (code c) - 48)) digits 0.

(** [needle in hay] *)
Fixpoint occurs_in (needle hay : string) : bool :=
  (String.prefix needle hay
   || match hay with
      | String _ hay' => occurs_in needle hay'
      | EmptyString => false
      end)%bool.

(** The result of a run, without what it printed. *)
Definition returned {A : Type} (r : result (A * stdout)) : result A :=
  match r with
  | Ok x => Ok (fst x)
  | Raise e => Raise e
  end.

(** ** Inputs the theorems are evaluated on *)

Definition leaf (tag text : string) : Xml.Element :=
  Xml.Elem tag [] (Some text) [].

Definition field_xml (name : string) (bits : list Xml.Element) : Xml.Element :=
  Xml.Elem "field" [] None
    (leaf "name" name :: leaf "description" "Mode" :: bits).

Definition register_xml (name addressOffset : string)
  (fields : list Xml.Element) : Xml.Element :=
  Xml.Elem "register" [] None
    [leaf "name" name; leaf "description" "Control"; leaf "size" "0x20";
     leaf "addressOffset" addressOffset; Xml.Elem "fields" [] None fields].

Definition peripheral_xml (name : string) (registers : list Xml.Element)
  : Xml.Element :=
  Xml.Elem "peripheral" [] None
    [leaf "name" name; leaf "description" "Uart";
     Xml.Elem "registers" [] None registers].

(** A field given as [<bitRange>[7:4]</bitRange>]. *)
Definition field_7_4 : Xml.Element :=
  field_xml "MODE" [leaf "bitRange" "[7:4]"].

(** A field with a name and a description only. *)
Definition field_without_bits : Xml.Element := field_xml "MODE" [].

(** A field whose [bitRange] lacks the brackets. *)
Definition field_bad_range : Xml.Element :=
  field_xml "MODE" [leaf "bitRange" "7:4"].

(** A well-formed field, bits 4 to 7. *)
Definition field_4_4 : Xml.Element :=
  field_xml "MODE" [leaf "bitOffset" "4"; leaf "bitWidth" "4"].

(** A peripheral whose only register sits at byte offset 4. *)
Definition uart_at_4 : Xml.Element :=
  peripheral_xml "UART0" [register_xml "CTRL" "0x4" [field_4_4]].

Definition uart_unparsable : Xml.Element :=
  peripheral_xml "UART0" [register_xml "CTRL" "0x0" [field_without_bits]].

Definition uart_bad_range : Xml.Element :=
  peripheral_xml "UART0" [register_xml "CTRL" "0x0" [field_bad_range]].

Definition timer_good : Xml.Element :=
  peripheral_xml "TIMER0" [register_xml "CTRL" "0x0" [field_4_4]].

(** A peripheral element with no [registers] child. *)
Definition uart_no_registers : Xml.Element :=
  Xml.Elem "peripheral" [] None
    [leaf "name" "UART0"; leaf "description" "Uart"].

Definition mode_field : Field.t := Field.new "MODE" "Mode" 4 4 false.

Definition ctrl_register : Register.t :=
  Register.new 32 0 "CTRL" "Control" "uint32_t"
    (normalize_fields [mode_field]) false 0.

Definition uart : Peripheral.t := Peripheral.new "UART0" "Uart" [ctrl_register].

(** Two fields that share no bit, the second zero bits wide. *)
Definition zero_width_fields : list Field.t :=
  [Field.new "B" "" 8 4 false; Field.new "A" "" 8 0 false].

Definition en_and_mode : list Field.t :=
  [mode_field; Field.new "EN" "Enable" 0 1 false].

Definition run_args : Args.t := Args.new 0 "/out" "chip".

(** ** Further properties: what they are stated with *)

(** What the normaliser promises of the registers it adds. *)
Definition is_reserved_register (r : Register.t) : Prop :=
  Register.reserved r = true /\ Register.fields r = [] /\ Register.name r = "".

(** The canonical name in closed form: the longest prefix of word
    characters without its last character, when that prefix has two
    characters or more, ends in a digit and is followed by nothing or
    by a final newline; the name itself otherwise. *)
Definition strip_one_digit (realname : string) : string :=
  let l := chars realname in
  let n := Re.run_length Re.Word l in
  let w := firstn n l in
  let rest := skipn n l in
  if (Nat.leb 2 n && is_digit (last w "0"%char) && Re.at_eol rest)%bool
  then str (removelast w)
  else realname.

(** A string of ASCII characters: on these [is_word] and [is_digit]
    are the classes [\w] and [\d] of the pattern. *)
Definition ascii_only (s : string) : Prop :=
  Forall (fun c => (code c < 128)%nat) (chars s).

(** A text with no white space at either end. *)
Definition trimmed (l : list ascii) : Prop :=
  match l with c :: _ => is_space c = false | [] => True end
  /\ match rev l with c :: _ => is_space c = false | [] => True end.

(** The address range of a register, written as the field with its
    offset and size: register-level gap filling computes on it what
    field-level gap filling computes on a field. *)
Definition span (r : Register.t) : Field.t :=
  Field.new "" "Reserved" (Register.offset r) (Register.size r) true.

(** Bit [b] lies in field [f]. *)
Definition holds (b : Z) (f : Field.t) : bool :=
  ((Field.offset f <=? b) && (b <? field_end f))%bool.

(** The named fields of a register: line 229 of [print_registers]. *)
Definition named_fields (register : Register.t) : list Field.t :=
  filter (fun field => 0 <? len (Field.name field)) (Register.fields register).

(** A field with a name: the test of line 229. *)
Definition is_named (f : Field.t) : bool := 0 <? len (Field.name f).

(** The registers [print_registers] renders: those with a field. *)
Definition with_fields (registers : list Register.t) : list Register.t :=
  filter (fun r => negb (Z.of_nat (List.length (Register.fields r)) <? 1))
    registers.

(** The mask loop of a field shifts by no negative count: the field has
    no bit to set, or starts at a bit that exists. *)
Definition shiftable (f : Field.t) : Prop :=
  Field.width f <= 0 \/ 0 <= Field.offset f.

(** A result that raises nothing but [ValueError]. *)
Definition only_ValueError {A : Type} (r : result A) : Prop :=
  forall e, r = Raise e -> e = ValueError.

(** The sum of a count over peripherals. *)
Definition total (count : Peripheral.t -> Z) (l : list Peripheral.t) : Z :=
  fold_right (fun p acc => count p + acc) 0 l.

(** The peripherals a list of elements gives, in the order of the
    elements: what [load_peripheral] returns for those that are not
    derived and have registers. *)
Definition loads (l : list Xml.Element) : list Peripheral.t :=
  flat_map
    (fun x =>
       if is_derived x then []
       else match load_peripheral x with
            | Ok (Some p) => [p]
            | _ => []
            end)
    l.

(** [q] is [p] with a path. *)
Definition routed_from (q p : Peripheral.t) : Prop :=
  q = Peripheral.set_path p (Peripheral.path q).

(** Every recorded pair of paths belongs to two accepted peripherals of
    one canonical name that are not structurally equal. *)
Definition duplicates_sound (st : run) : Prop :=
  Forall
    (fun pair =>
       exists d q,
         In d (peripherals st) /\ In q (peripherals st)
         /\ Peripheral.path d = fst pair /\ Peripheral.path q = snd pair
         /\ Peripheral.name d = Peripheral.name q
         /\ Peripheral.eq q d = false)
    (duplicates st).

(** ** Further inputs *)

(** A peripheral whose [registers] element has no children. *)
Definition uart_empty : Xml.Element := peripheral_xml "UART0" [].

(** A peripheral derived from another. *)
Definition uart_derived : Xml.Element :=
  Xml.Elem "peripheral" [("derivedFrom", "UART0")] None [leaf "name" "UART1"].

(** A second UART whose only field differs from that of the first. *)
Definition uart1_divergent : Xml.Element :=
  peripheral_xml "UART1"
    [register_xml "CTRL" "0x0"
       [field_xml "MODE" [leaf "bitOffset" "4"; leaf "bitWidth" "2"]]].

(** Two registers of size 4, at offsets 8 and 0. *)
Definition two_registers : list Register.t :=
  [Register.new 4 8 "B" "" "UNKNOWN" [] false 0;
   Register.new 4 0 "A" "" "UNKNOWN" [] false 0].

(** A field one bit wide, at bit 3. *)
Definition en_field : Field.t := Field.new "EN" "Enable" 3 1 false.

Definition en_register : Register.t :=
  Register.new 32 0 "CTRL" "Control" "uint32_t"
    (normalize_fields [en_field]) false 0.



(** [uart] under another instance name and with a path. *)
Definition uart1_same : Peripheral.t :=
  Peripheral.Build "UART" "UART1" "Uart" [ctrl_register] "/out/chip_uart.h".

(** A read-only field given by offset and width, with white space
    around the texts and a [bitRange] that says otherwise. *)
Definition field_ro : Xml.Element :=
  field_xml "MODE"
    [leaf "bitOffset" " 4"; leaf "bitWidth" "2 "; leaf "access" " read-only ";
     leaf "bitRange" "[9:9]"].

(** A register with a name and a description only. *)
Definition register_without_size : Xml.Element :=
  Xml.Elem "register" [] None
    [leaf "name" "STAT"; leaf "description" "Status";
     leaf "addressOffset" "0x4"].

Definition uart_without_size : Xml.Element :=
  peripheral_xml "UART0"
    [register_xml "CTRL" "0x0" [field_4_4]; register_without_size].

(** ** Facts about the sort *)

Section SortFacts.
Context {A : Type} (key : A -> Z) (lt : A -> A -> bool).
Hypothesis lt_key : forall a b, lt a b = (key a <? key b).

Lemma insert_perm (x : A) (l : list A) : Permutation (insert lt x l) (x :: l).
Proof.
  induction l as [|y l IH]; simpl; [reflexivity|].
  destruct (lt y x); [|reflexivity].
  rewrite IH. apply perm_swap.
Qed.

Lemma sort_perm (l : list A) : Permutation (sort lt l) l.
Proof.
  induction l as [|x l IH]; simpl; [constructor|].
  unfold sort in IH |- *. simpl. rewrite insert_perm. now constructor.
Qed.

Lemma sort_cons (x : A) (l : list A) : sort lt (x :: l) = insert lt x (sort lt l).
Proof. reflexivity. Qed.

Lemma insert_ascending (x : A) (l : list A) :
  ascending key l -> ascending key (insert lt x l).
Proof.
  induction l as [|y l IH]; simpl; intros H.
  - split; [constructor | exact I].
  - destruct H as [Hy Hl]. rewrite lt_key.
    destruct (Z.ltb_spec (key y) (key x)) as [Hlt|Hge]; simpl.
    + split; [|now apply IH].
      eapply Permutation_Forall.
      * symmetry. apply insert_perm.
      * constructor; [lia | exact Hy].
    + split; [|now split].
      constructor; [exact Hge|].
      eapply Forall_impl; [|exact Hy]. simpl. intros; lia.
Qed.

Lemma sort_ascending (l : list A) : ascending key (sort lt l).
Proof.
  induction l as [|x l IH]; [exact I|].
  rewrite sort_cons. now apply insert_ascending.
Qed.

(** An element that does not come after the head goes in front. *)
Lemma insert_front (x : A) (l : list A) :
  match l with y :: _ => key x <= key y | [] => True end ->
  insert lt x l = x :: l.
Proof.
  destruct l as [|y l]; simpl; [reflexivity|].
  intros H. rewrite lt_key.
  destruct (Z.ltb_spec (key y) (key x)); [lia | reflexivity].
Qed.

(** An element strictly before all others is sorted to the front. *)
Lemma sort_front (x : A) (l1 l2 : list A) :
  Forall (fun y => key x < key y) (l1 ++ l2)%list ->
  sort lt (l1 ++ x :: l2)%list = x :: sort lt (l1 ++ l2)%list.
Proof.
  induction l1 as [|a l1 IH]; cbn [app]; intros H.
  - rewrite sort_cons. apply insert_front.
    pose proof (sort_perm l2) as Hp.
    destruct (sort lt l2) as [|y s] eqn:E; [exact I|].
    assert (Hin : In y l2).
    { apply (Permutation_in _ Hp). now left. }
    rewrite Forall_forall in H. specialize (H _ Hin). lia.
  - inversion H as [|? ? Ha Hrest]; subst.
    rewrite !sort_cons, (IH Hrest). cbn [insert].
    rewrite lt_key.
    destruct (Z.ltb_spec (key x) (key a)); [reflexivity | lia].
Qed.

End SortFacts.

(** ** The gap scan appends [gaps] *)

Ltac list_norm :=
  repeat first [rewrite <- app_assoc | progress cbn [app]].

Lemma fill_field_gaps_from (p s e : list Field.t) :
  fold_left field_gap_step (seq (List.length p) (List.length s - 1))
    (p ++ s ++ e)%list
  = (p ++ s ++ e ++ gaps s)%list.
Proof.
  revert p e. induction s as [|a s IH]; intros p e.
  - simpl. now rewrite app_nil_r.
  - destruct s as [|b s].
    + simpl. now rewrite app_nil_r.
    + replace (List.length (a :: b :: s) - 1)%nat
        with (S (List.length (b :: s) - 1)) by (simpl; lia).
      cbn [seq fold_left].
      assert (Hstep : field_gap_step (p ++ (a :: b :: s) ++ e)%list (List.length p)
                      = ((p ++ [a]) ++ (b :: s) ++ (e ++ gap a b))%list).
      { unfold field_gap_step.
        rewrite nth_error_app2 by lia. rewrite Nat.sub_diag. cbn [nth_error app].
        rewrite nth_error_app2 by lia.
        replace (List.length p + 1 - List.length p)%nat with 1%nat by lia.
        cbn [nth_error app].
        unfold gap, field_end.
        destruct (0 <? Field.offset b - (Field.offset a + Field.width a)).
        - now list_norm.
        - rewrite app_nil_r. now list_norm. }
      rewrite Hstep.
      replace (S (List.length p)) with (List.length (p ++ [a])%list)
        by (rewrite length_app; simpl; lia).
      rewrite IH. cbn [gaps]. now list_norm.
Qed.

Lemma fill_field_gaps_gaps (fields : list Field.t) :
  fill_field_gaps fields = (fields ++ gaps fields)%list.
Proof.
  pose proof (fill_field_gaps_from [] fields []) as H.
  simpl in H. rewrite app_nil_r in H. exact H.
Qed.

(** ** Chains of fields *)

Lemma Field_lt_key (a b : Field.t) :
  Field.lt a b = (Field.offset a <? Field.offset b).
Proof. reflexivity. Qed.

Lemma chained_after (a : Field.t) (rest : list Field.t) :
  chained (a :: rest) ->
  Forall (fun y => field_end a <= Field.offset y) rest.
Proof.
  revert a. induction rest as [|b r IH]; intros a H; [constructor|].
  destruct H as (Ha & Hab & Hb).
  constructor; [exact Hab|].
  specialize (IH b Hb). eapply Forall_impl; [|exact IH].
  cbn beta. intros y Hy. destruct Hb as (Hwb & _).
  unfold field_end in *. lia.
Qed.

Lemma gaps_after (l : list Field.t) (lo : Z) :
  chained l ->
  Forall (fun y => lo <= Field.offset y) l ->
  Forall (fun y => lo <= Field.offset y) (gaps l).
Proof.
  induction l as [|a l IH]; intros Hc Hlo; [constructor|].
  destruct l as [|b s]; [constructor|].
  cbn [gaps]. apply Forall_app. split.
  - unfold gap. destruct (0 <? _); [|constructor].
    constructor; [|constructor]. cbn.
    inversion Hlo; subst. destruct Hc as (Hw & _). unfold field_end. lia.
  - apply IH; [apply Hc | now inversion Hlo].
Qed.

Lemma interleave_head (b : Field.t) (s : list Field.t) :
  exists t, interleave (b :: s) = b :: t.
Proof. destruct s; cbn; eauto. Qed.

Lemma gaps_cons (a b : Field.t) (s : list Field.t) :
  gaps (a :: b :: s) = (gap a b ++ gaps (b :: s))%list.
Proof. reflexivity. Qed.

Lemma interleave_cons (a b : Field.t) (s : list Field.t) :
  interleave (a :: b :: s) = (a :: gap a b ++ interleave (b :: s))%list.
Proof. reflexivity. Qed.

Lemma chained_from (b : Field.t) (s : list Field.t) :
  chained (b :: s) ->
  Forall (fun y => Field.offset b <= Field.offset y)
    ((b :: s) ++ gaps (b :: s))%list.
Proof.
  intros Hc.
  assert (H : Forall (fun y => Field.offset b <= Field.offset y) (b :: s)).
  { constructor; [lia|].
    eapply Forall_impl; [|exact (chained_after _ _ Hc)].
    cbn beta. intros z Hz. destruct Hc as (Hwb & _).
    unfold field_end in *. lia. }
  apply Forall_app. split; [exact H|].
  now apply gaps_after.
Qed.

(** Sorting after the gap scan puts every reserved field into its gap. *)
Lemma sort_interleave (l : list Field.t) :
  chained l -> sort Field.lt (l ++ gaps l)%list = interleave l.
Proof.
  induction l as [|a l IH]; intros Hc; [reflexivity|].
  destruct l as [|b s]; [reflexivity|].
  destruct Hc as (Hwa & Hab & Hc).
  specialize (IH Hc).
  rewrite gaps_cons, interleave_cons, <- app_comm_cons, sort_cons.
  pose proof (chained_from _ _ Hc) as Hfrom.
  unfold gap.
  destruct (Z.ltb_spec 0 (Field.offset b - field_end a)) as [Hgap|Hnogap].
  - set (g := reserved_field (field_end a) (Field.offset b - field_end a)).
    change ([g] ++ gaps (b :: s))%list with (g :: gaps (b :: s)).
    rewrite (sort_front Field.offset Field.lt Field_lt_key).
    + rewrite IH. apply (insert_front Field.offset Field.lt Field_lt_key).
      cbn. unfold field_end. lia.
    + eapply Forall_impl; [|exact Hfrom]. cbn. intros y Hy. lia.
  - change ([] ++ gaps (b :: s))%list with (gaps (b :: s)).
    change ([] ++ interleave (b :: s))%list with (interleave (b :: s)).
    rewrite IH.
    destruct (interleave_head b s) as [t Ht]. rewrite Ht.
    apply (insert_front Field.offset Field.lt Field_lt_key).
    unfold field_end in *. lia.
Qed.

Lemma last_opt_app {A : Type} (x y : list A) :
  y <> [] -> last_opt (x ++ y) = last_opt y.
Proof.
  intros Hy. unfold last_opt. rewrite rev_app_distr.
  destruct (rev y) as [|z r] eqn:E; [|reflexivity].
  apply (f_equal (@rev A)) in E. rewrite rev_involutive in E. contradiction.
Qed.

Lemma last_opt_snoc {A : Type} (x : list A) (z : A) :
  last_opt (x ++ [z]) = Some z.
Proof. now rewrite last_opt_app. Qed.

Lemma last_opt_cons {A : Type} (a b : A) (l : list A) :
  last_opt (a :: b :: l) = last_opt (b :: l).
Proof. now apply (last_opt_app [a] (b :: l)). Qed.

Lemma last_opt_in {A : Type} (l : list A) (z : A) :
  last_opt l = Some z -> In z l.
Proof.
  unfold last_opt. destruct (rev l) as [|x r] eqn:E; [discriminate|].
  intros [= ->]. apply in_rev. rewrite E. now left.
Qed.

Lemma last_opt_interleave (l : list Field.t) :
  last_opt (interleave l) = last_opt l.
Proof.
  induction l as [|a l IH]; [reflexivity|].
  destruct l as [|b s]; [reflexivity|].
  rewrite interleave_cons, last_opt_cons.
  change (a :: gap a b ++ interleave (b :: s))%list
    with ((a :: gap a b) ++ interleave (b :: s))%list.
  rewrite last_opt_app, IH; [reflexivity|].
  destruct (interleave_head b s) as [t ->]. discriminate.
Qed.

Lemma tiles_app (lo mid hi : Z) (x y : list Field.t) :
  tiles lo mid x -> tiles mid hi y -> tiles lo hi (x ++ y).
Proof.
  revert lo. induction x as [|f x IH]; cbn; intros lo Hx Hy.
  - now subst.
  - destruct Hx as (Ho & Hw & Hx). repeat split; auto.
Qed.

(** A chain with its gaps filled tiles the range from its first field
    to the end of its last. *)
Lemma tiles_interleave (l : list Field.t) (a z : Field.t) :
  chained (a :: l) -> last_opt (a :: l) = Some z ->
  tiles (Field.offset a) (field_end z) (interleave (a :: l)).
Proof.
  revert a. induction l as [|b s IH]; intros a Hc Hz.
  - cbn in Hz. injection Hz as <-. cbn. destruct Hc as (Hw & _). auto.
  - rewrite last_opt_cons in Hz.
    destruct Hc as (Hwa & Hab & Hc).
    specialize (IH b Hc Hz).
    rewrite interleave_cons. cbn [tiles]. split; [reflexivity|]. split; [exact Hwa|].
    unfold gap.
    destruct (Z.ltb_spec 0 (Field.offset b - field_end a)) as [Hgap|Hnogap].
    + cbn [app tiles]. cbn [Field.offset Field.width reserved_field].
      split; [reflexivity|]. split; [lia|].
      replace (field_end (reserved_field (field_end a) (Field.offset b - field_end a)))
        with (Field.offset b) by (unfold field_end; cbn; lia).
      exact IH.
    + cbn [app]. replace (field_end a) with (Field.offset b) by lia. exact IH.
Qed.

(** ** From tiling to coverage *)

Lemma tiles_le (lo hi : Z) (l : list Field.t) : tiles lo hi l -> lo <= hi.
Proof.
  revert lo. induction l as [|f l IH]; cbn; intros lo H; [lia|].
  destruct H as (Ho & Hw & H). apply IH in H. unfold field_end in H. lia.
Qed.

Lemma tiles_within (lo hi : Z) (l : list Field.t) :
  tiles lo hi l ->
  Forall (fun f => lo <= Field.offset f /\ field_end f <= hi) l.
Proof.
  revert lo. induction l as [|f l IH]; cbn; intros lo H; [constructor|].
  destruct H as (Ho & Hw & H).
  pose proof (tiles_le _ _ _ H) as Hle.
  constructor; [unfold field_end in *; lia|].
  eapply Forall_impl; [|exact (IH _ H)].
  cbn beta. unfold field_end. intros g Hg. lia.
Qed.

Lemma holders_below (lo hi b : Z) (l : list Field.t) :
  tiles lo hi l -> b < lo -> holders b l = [].
Proof.
  intros Ht Hb. apply tiles_within in Ht.
  unfold holders. induction Ht as [|f l Hf _ IH]; [reflexivity|].
  cbn [filter].
  destruct (Z.leb_spec (Field.offset f) b); [lia|]. exact IH.
Qed.

Lemma tiles_holders (lo hi : Z) (l : list Field.t) :
  tiles lo hi l ->
  forall b, lo <= b < hi -> List.length (holders b l) = 1%nat.
Proof.
  revert lo. induction l as [|f l IH]; cbn [tiles]; intros lo H b Hb; [lia|].
  destruct H as (Ho & Hw & H).
  unfold holders. cbn [filter]. fold (holders b l).
  destruct (Z.leb_spec (Field.offset f) b) as [_|]; [|lia].
  destruct (Z.ltb_spec b (field_end f)) as [Hin|Hout]; cbn [andb].
  - now rewrite (holders_below _ _ _ _ H Hin).
  - apply (IH _ H). lia.
Qed.

Lemma tiles_covers (lo hi : Z) (l : list Field.t) :
  tiles lo hi l -> covers lo hi l.
Proof.
  intros H. split; [now apply tiles_within | now apply tiles_holders].
Qed.

(** ** The sorted input fields form a chain *)

Lemma disjoint_sym (f g : Field.t) : disjoint f g -> disjoint g f.
Proof. unfold disjoint. tauto. Qed.

Lemma pairwise_disjoint_perm (l l' : list Field.t) :
  Permutation l l' -> pairwise_disjoint l -> pairwise_disjoint l'.
Proof.
  induction 1 as [|x l l' Hp IH|x y l|l l' l'' _ IH1 _ IH2]; cbn; auto.
  - intros (Hx & Hl). split; [|now apply IH].
    eapply Permutation_Forall; eassumption.
  - intros (Hy & Hx & Hl). inversion Hy as [|? ? Hyx Hyl]; subst.
    repeat split; auto. constructor; [now apply disjoint_sym | exact Hx].
Qed.

Lemma sorted_chained (l : list Field.t) :
  ascending Field.offset l -> pairwise_disjoint l ->
  Forall (fun f => 1 <= Field.width f) l ->
  chained l.
Proof.
  induction l as [|a l IH]; cbn [ascending pairwise_disjoint chained];
    [trivial|].
  intros (Hasc & Hl) (Hdis & Hpw) Hw.
  inversion Hw as [|? ? Hwa Hwl]; subst.
  split; [lia|]. split; [|now apply IH].
  destruct l as [|b s]; [exact I|].
  inversion Hasc as [|? ? Hab _]; subst.
  inversion Hdis as [|? ? Hd _]; subst.
  inversion Hwl as [|? ? Hwb _]; subst.
  unfold disjoint, field_end in *. lia.
Qed.

(** ** What the normaliser adds *)

Lemma reserved_field_is_reserved (offset width : Z) :
  is_reserved (reserved_field offset width).
Proof. split; reflexivity. Qed.

Lemma gaps_reserved (l : list Field.t) : Forall is_reserved (gaps l).
Proof.
  induction l as [|a l IH]; [constructor|].
  destruct l as [|b s]; [constructor|].
  rewrite gaps_cons. apply Forall_app. split; [|exact IH].
  unfold gap. destruct (0 <? _); repeat constructor.
Qed.

(** The normalised fields are the given ones and reserved ones. *)
Lemma normalize_fields_adds_reserved (fields : list Field.t) :
  exists synthesized,
    Permutation (normalize_fields fields) (fields ++ synthesized)
    /\ Forall is_reserved synthesized.
Proof.
  unfold normalize_fields.
  destruct (Nat.ltb 0 (List.length fields));
    [|exists []; rewrite app_nil_r; split; [reflexivity | constructor]].
  set (s := sort Field.lt fields).
  assert (Hs : Permutation s fields) by apply sort_perm.
  set (pre := match s with
              | f0 :: _ =>
                  if negb (Field.offset f0 =? 0)
                  then reserved_field 0 (Field.offset f0 - 1) :: s else s
              | [] => s
              end).
  assert (Hpre : exists r, Permutation pre (fields ++ r) /\ Forall is_reserved r).
  { subst pre. destruct s as [|f0 s'].
    - exists []. rewrite app_nil_r. split; [exact Hs | constructor].
    - destruct (negb (Field.offset f0 =? 0)).
      + exists [reserved_field 0 (Field.offset f0 - 1)]. split.
        * rewrite <- Hs. apply Permutation_cons_append.
        * repeat constructor.
      + exists []. rewrite app_nil_r. split; [exact Hs | constructor]. }
  destruct Hpre as (r & Hr & Hres).
  rewrite fill_field_gaps_gaps.
  set (x := sort Field.lt (pre ++ gaps pre)).
  assert (Hx : Permutation x (fields ++ (r ++ gaps pre))).
  { subst x. etransitivity; [apply sort_perm|].
    rewrite app_assoc. now apply Permutation_app_tail. }
  assert (Hxres : Forall is_reserved (r ++ gaps pre)).
  { apply Forall_app. split; [exact Hres | apply gaps_reserved]. }
  destruct (last_opt x) as [fl|]; [|eauto].
  destruct (negb (Field.offset fl + Field.width fl =? 32)); [|eauto].
  exists ((r ++ gaps pre) ++ [reserved_field (Field.offset fl + Field.width fl)
                               (32 - (Field.offset fl + Field.width fl))])%list.
  split.
  - rewrite app_assoc. now apply Permutation_app_tail.
  - apply Forall_app. split; [exact Hxres | repeat constructor].
Qed.

(** ** The normalised fields tile the register *)

(** The shape of the result: the sorted fields, a reserved field in
    front if need be, every gap filled in place, and a reserved field
    at the end if need be. *)
Lemma normalize_fields_shape (fields : list Field.t) :
  fields <> [] ->
  chained (with_first_reserved (sort Field.lt fields)) ->
  normalize_fields fields
  = (interleave (with_first_reserved (sort Field.lt fields))
     ++ trailing (with_first_reserved (sort Field.lt fields)))%list.
Proof.
  intros Hne Hc. unfold normalize_fields.
  destruct fields as [|f fs]; [contradiction|].
  cbn [List.length Nat.ltb Nat.leb].
  fold (with_first_reserved (sort Field.lt (f :: fs))).
  rewrite fill_field_gaps_gaps, (sort_interleave _ Hc).
  unfold trailing. rewrite last_opt_interleave.
  destruct (last_opt (with_first_reserved (sort Field.lt (f :: fs))))
    as [fl|]; [|now rewrite app_nil_r].
  fold (field_end fl).
  destruct (negb (field_end fl =? 32)); [reflexivity | now rewrite app_nil_r].
Qed.

Lemma sort_fields_chained (fields : list Field.t) :
  Forall (fun f => 0 <= Field.offset f /\ 1 <= Field.width f) fields ->
  pairwise_disjoint fields ->
  chained (sort Field.lt fields).
Proof.
  intros Hpos Hdis.
  assert (Hs : Permutation (sort Field.lt fields) fields) by apply sort_perm.
  apply sorted_chained.
  - apply (sort_ascending Field.offset Field.lt Field_lt_key).
  - eapply pairwise_disjoint_perm; [symmetry; exact Hs | exact Hdis].
  - eapply Permutation_Forall; [symmetry; exact Hs|].
    eapply Forall_impl; [|exact Hpos]. cbn beta. tauto.
Qed.

Lemma first_reserved_chained (sorted : list Field.t) :
  chained sorted ->
  Forall (fun f => 0 <= Field.offset f) sorted ->
  chained (with_first_reserved sorted).
Proof.
  intros Hc Hpos. destruct sorted as [|f0 s']; [exact I|].
  unfold with_first_reserved.
  destruct (Z.eqb_spec (Field.offset f0) 0) as [H0|H0]; cbn [negb];
    [exact Hc|].
  inversion Hpos as [|? ? Hf0 _]; subst.
  cbn [chained]. split; [cbn; lia|].
  split; [unfold field_end; cbn; lia | exact Hc].
Qed.

Lemma first_reserved_head (sorted : list Field.t) :
  sorted <> [] ->
  exists p0 rest,
    with_first_reserved sorted = p0 :: rest /\ Field.offset p0 = 0.
Proof.
  destruct sorted as [|f0 s']; [contradiction|]. intros _.
  unfold with_first_reserved.
  destruct (Z.eqb_spec (Field.offset f0) 0) as [H0|H0]; cbn [negb]; eauto.
Qed.

Lemma first_reserved_last (sorted : list Field.t) :
  last_opt (with_first_reserved sorted) = last_opt sorted.
Proof.
  destruct sorted as [|f0 s']; [reflexivity|]. unfold with_first_reserved.
  destruct (negb (Field.offset f0 =? 0)); [apply last_opt_cons | reflexivity].
Qed.

Lemma normalize_fields_tiles (fields : list Field.t) :
  fields <> [] ->
  Forall (fun f => 0 <= Field.offset f /\ 1 <= Field.width f) fields ->
  Forall (fun f => field_end f <= 32) fields ->
  pairwise_disjoint fields ->
  tiles 0 32 (normalize_fields fields).
Proof.
  intros Hne Hpos Hin Hdis.
  set (s := sort Field.lt fields).
  assert (Hs : Permutation s fields) by apply sort_perm.
  assert (Hsne : s <> []).
  { intros E. rewrite E in Hs. apply Permutation_nil in Hs. contradiction. }
  assert (Hc : chained (with_first_reserved s)).
  { apply first_reserved_chained; [now apply sort_fields_chained|].
    eapply Permutation_Forall; [symmetry; exact Hs|].
    eapply Forall_impl; [|exact Hpos]. cbn beta. tauto. }
  rewrite (normalize_fields_shape fields Hne Hc). fold s.
  destruct (first_reserved_head s Hsne) as (p0 & rest & Epre & Hp0).
  unfold trailing.
  destruct (last_opt (with_first_reserved s)) as [fl|] eqn:El.
  2:{ rewrite Epre in El. unfold last_opt in El. cbn in El.
      destruct (rev rest); discriminate. }
  assert (Hfl : field_end fl <= 32).
  { rewrite first_reserved_last in El. apply last_opt_in in El.
    rewrite Forall_forall in Hin. apply Hin.
    eapply Permutation_in; [exact Hs | exact El]. }
  assert (Ht : tiles 0 (field_end fl) (interleave (with_first_reserved s))).
  { rewrite Epre, <- Hp0. apply tiles_interleave; now rewrite <- Epre. }
  destruct (Z.eqb_spec (field_end fl) 32) as [E32|N32]; cbn [negb].
  - rewrite app_nil_r. now rewrite <- E32.
  - eapply tiles_app; [exact Ht|].
    cbn [tiles]. unfold field_end in *.
    cbn [reserved_field Field.offset Field.width]. repeat split; lia.
Qed.

(** Where the first field starts at a bit [f] other than 0, the result
    begins with a reserved field of [f - 1] bits and one of a single
    bit. *)
Lemma normalize_fields_first_reserved (fields : list Field.t) (f0 : Field.t)
  (s' : list Field.t) :
  fields <> [] ->
  Forall (fun f => 0 <= Field.offset f /\ 1 <= Field.width f) fields ->
  pairwise_disjoint fields ->
  sort Field.lt fields = f0 :: s' ->
  Field.offset f0 <> 0 ->
  exists rest,
    normalize_fields fields
    = reserved_field 0 (Field.offset f0 - 1)
      :: reserved_field (Field.offset f0 - 1) 1 :: f0 :: rest.
Proof.
  intros Hne Hpos Hdis Es H0.
  assert (Hs : Permutation (sort Field.lt fields) fields) by apply sort_perm.
  assert (Hc : chained (with_first_reserved (sort Field.lt fields))).
  { apply first_reserved_chained; [now apply sort_fields_chained|].
    eapply Permutation_Forall; [symmetry; exact Hs|].
    eapply Forall_impl; [|exact Hpos]. cbn beta. tauto. }
  rewrite (normalize_fields_shape fields Hne Hc), Es.
  unfold with_first_reserved at 1.
  destruct (Z.eqb_spec (Field.offset f0) 0) as [|_]; [contradiction|].
  cbn [negb]. rewrite interleave_cons.
  destruct (interleave_head f0 s') as [t ->].
  unfold gap, field_end. cbn [reserved_field Field.offset Field.width].
  replace (Field.offset f0 - (0 + (Field.offset f0 - 1))) with 1 by lia.
  replace (0 + (Field.offset f0 - 1)) with (Field.offset f0 - 1) by lia.
  cbn [Z.ltb Z.compare app]. eauto.
Qed.

(** ** Characters *)

Ltac char_arith :=
  unfold is_space, is_word, is_digit, is_underscore, is_linebreak, between in *;
  repeat match goal with
         | H : (_ && _)%bool = true |- _ => apply andb_true_iff in H; destruct H
         | H : Nat.leb _ _ = true |- _ => apply Nat.leb_le in H
         end;
  repeat match goal with
         | |- context [Nat.leb ?a ?b] => destruct (Nat.leb_spec a b); try lia
         | |- context [Nat.eqb ?a ?b] => destruct (Nat.eqb_spec a b); try lia
         end;
  try reflexivity.

Lemma digit_not_space (c : ascii) : is_digit c = true -> is_space c = false.
Proof. intros H. char_arith. Qed.

Lemma digit_is_word (c : ascii) : is_digit c = true -> is_word c = true.
Proof. intros H. unfold is_word. rewrite H. now rewrite !orb_true_r. Qed.

Lemma digit_val_10 (c : ascii) :
  is_digit c = true -> digit_val 10 c = Some (Z.of_nat (code c) - 48).
Proof.
  intros H. unfold digit_val. rewrite H.
  destruct (Z.ltb_spec (Z.of_nat (code c) - 48) 10); [reflexivity|].
  exfalso. char_arith. lia.
Qed.

Lemma digit_not_underscore (c : ascii) :
  is_digit c = true -> is_underscore c = false.
Proof. intros H. char_arith. Qed.

Lemma lstrip_digits (l : list ascii) :
  match l with c :: _ => is_digit c = true | [] => True end ->
  lstrip_chars l = l.
Proof.
  destruct l as [|c l]; [reflexivity|]. intros H. cbn.
  now rewrite (digit_not_space c H).
Qed.

Lemma strip_digits (l : list ascii) :
  forallb is_digit l = true -> Py.strip (str l) = str l.
Proof.
  intros H. unfold Py.strip, chars, str.
  rewrite list_ascii_of_string_of_list_ascii.
  rewrite lstrip_digits.
  - unfold rstrip_chars. rewrite lstrip_digits; [now rewrite rev_involutive|].
    destruct (rev l) as [|c r] eqn:E; [exact I|].
    rewrite forallb_forall in H. apply H. apply in_rev. rewrite E. now left.
  - destruct l as [|c l]; [exact I|]. cbn in H. now apply andb_true_iff in H.
Qed.

Lemma int_digits_decimal (l : list ascii) (acc : Z) :
  forallb is_digit l = true ->
  int_digits 10 acc l
  = Some (fold_left (fun acc c => acc * 10 + (Z.of_nat (code c) - 48)) l acc).
Proof.
  revert acc. induction l as [|c l IH]; intros acc H; [reflexivity|].
  cbn in H. apply andb_true_iff in H. destruct H as [Hc Hl].
  cbn [int_digits fold_left].
  rewrite (digit_not_underscore c Hc), (digit_val_10 c Hc). now apply IH.
Qed.

(** [int] reads a string of decimal digits as the number it denotes. *)
Lemma int_decimal (l : list ascii) :
  l <> [] -> forallb is_digit l = true -> Py.int (str l) 10 = Ok (decimal l).
Proof.
  intros Hne H. unfold Py.int. rewrite (strip_digits l H).
  unfold chars, str. rewrite list_ascii_of_string_of_list_ascii.
  destruct l as [|c l]; [contradiction|].
  pose proof H as H'. cbn in H'. apply andb_true_iff in H'. destruct H' as [Hc Hl].
  assert (Hsign : int_signed 10 (c :: l) = int_prefixed 10 (c :: l)).
  { unfold int_signed. clear - Hc. char_arith. }
  assert (Hpre : int_prefixed 10 (c :: l) = int_body 10 (c :: l)).
  { destruct l as [|x l]; reflexivity. }
  rewrite Hsign, Hpre. cbn [int_body]. rewrite (digit_val_10 c Hc).
  rewrite (int_digits_decimal l _ Hl). reflexivity.
Qed.

(** ** The matcher *)

Lemma run_length_all (a : Re.atom) (d rest : list ascii) :
  forallb (Re.accepts a) d = true ->
  match rest with c :: _ => Re.accepts a c = false | [] => True end ->
  Re.run_length a (d ++ rest) = List.length d.
Proof.
  intros Hd Hrest. induction d as [|c d IH]; cbn.
  - destruct rest as [|c rest]; [reflexivity|]. cbn. now rewrite Hrest.
  - cbn in Hd. apply andb_true_iff in Hd. destruct Hd as [Hc Hd].
    rewrite Hc. f_equal. now apply IH.
Qed.

Lemma firstn_length_app {A : Type} (d rest : list A) :
  firstn (List.length d) (d ++ rest) = d.
Proof.
  rewrite firstn_app, Nat.sub_diag, firstn_all. cbn. apply app_nil_r.
Qed.

Lemma skipn_length_app {A : Type} (d rest : list A) :
  skipn (List.length d) (d ++ rest) = rest.
Proof.
  rewrite skipn_app, Nat.sub_diag, skipn_all. reflexivity.
Qed.

(** A greedy [+] that meets a run it must take whole, when the rest of
    the pattern matches what follows the run. *)
Lemma go_plus_whole (a : Re.atom) (r : Re.regex) (cur : option (list ascii))
  (caps : list (list ascii)) (d rest : list ascii) (m : list string) :
  d <> [] ->
  forallb (Re.accepts a) d = true ->
  match rest with c :: _ => Re.accepts a c = false | [] => True end ->
  Re.go r (Re.extend cur d) caps rest = Some m ->
  Re.go (Re.Plus a :: r) cur caps (d ++ rest) = Some m.
Proof.
  intros Hne Hd Hrest Hgo. cbn [Re.go].
  rewrite (run_length_all a d rest Hd Hrest).
  destruct d as [|c d]; [contradiction|].
  cbn [List.length Re.longest_first].
  change (S (List.length d)) with (List.length (c :: d)).
  rewrite firstn_length_app, skipn_length_app, Hgo. reflexivity.
Qed.

Lemma go_one (a : Re.atom) (r : Re.regex) (cur : option (list ascii))
  (caps : list (list ascii)) (c : ascii) (l : list ascii) :
  Re.accepts a c = true ->
  Re.go (Re.One a :: r) cur caps (c :: l) = Re.go r (Re.extend cur [c]) caps l.
Proof. intros H. cbn [Re.go]. now rewrite H. Qed.

Lemma go_open (r : Re.regex) (cur : option (list ascii))
  (caps : list (list ascii)) (l : list ascii) :
  Re.go (Re.Open :: r) cur caps l = Re.go r (Some []) caps l.
Proof. reflexivity. Qed.

Lemma go_close (r : Re.regex) (g : list ascii)
  (caps : list (list ascii)) (l : list ascii) :
  Re.go (Re.Close :: r) (Some g) caps l = Re.go r None (g :: caps) l.
Proof. reflexivity. Qed.

Lemma match_bitRange (a b : list ascii) :
  a <> [] -> b <> [] ->
  forallb is_digit a = true -> forallb is_digit b = true ->
  Re.match_ bitRange_re (str ("["%char :: a ++ ":"%char :: b ++ ["]"%char]))
  = Some [str a; str b].
Proof.
  intros Ha Hb Da Db. unfold Re.match_, chars, str.
  rewrite list_ascii_of_string_of_list_ascii.
  unfold bitRange_re.
  rewrite go_one by reflexivity. rewrite go_open.
  apply go_plus_whole; [exact Ha | exact Da | reflexivity|].
  change (Re.extend (Some []) a) with (Some a).
  rewrite go_close. rewrite go_one by reflexivity. rewrite go_open.
  apply go_plus_whole; [exact Hb | exact Db | reflexivity|].
  change (Re.extend (Some []) b) with (Some b).
  rewrite go_close. rewrite go_one by reflexivity. reflexivity.
Qed.

Lemma load_bitRange_digits (a b : list ascii) :
  a <> [] -> b <> [] ->
  forallb is_digit a = true -> forallb is_digit b = true ->
  load_bitRange (str ("["%char :: a ++ ":"%char :: b ++ ["]"%char]))
  = Next (IsInt (decimal a), IsInt (decimal b - decimal a + 1)).
Proof.
  intros Ha Hb Da Db. unfold load_bitRange.
  rewrite (match_bitRange a b Ha Hb Da Db).
  cbn [List.length Nat.ltb Nat.leb nth].
  rewrite (int_decimal a Ha Da), (int_decimal b Hb Db). reflexivity.
Qed.

(** ** Canonical names *)

Lemma run_length_whole (a : Re.atom) (d : list ascii) :
  forallb (Re.accepts a) d = true -> Re.run_length a d = List.length d.
Proof.
  intros H. rewrite <- (app_nil_r d) at 1. now apply run_length_all.
Qed.

(** On a name made of word characters that ends in a digit, the greedy
    [\w+] gives back one character only: [m[1]] is the name without
    its last digit. *)
Lemma canonical_name_last_digit (w : list ascii) (d : ascii) :
  w <> [] -> forallb is_word w = true -> is_digit d = true ->
  Peripheral.canonical_name (str (w ++ [d])) = str w.
Proof.
  intros Hne Hw Hd. unfold Peripheral.canonical_name, Re.match_, chars, str.
  rewrite list_ascii_of_string_of_list_ascii.
  unfold Peripheral.name_re. rewrite go_open. cbn [Re.go].
  rewrite run_length_whole.
  2:{ apply forallb_forall. intros x Hx. cbn [Re.accepts].
      apply in_app_or in Hx. destruct Hx as [Hx|[<-|[]]].
      - rewrite forallb_forall in Hw. now apply Hw.
      - now apply digit_is_word. }
  rewrite length_app. cbn [List.length]. rewrite Nat.add_1_r.
  cbn [Re.longest_first].
  replace (S (List.length w)) with (List.length (w ++ [d])%list)
    by (rewrite length_app; cbn; lia).
  rewrite firstn_all, skipn_all. cbn [Re.extend option_map app Re.run_length
    Re.longest_first].
  destruct w as [|c w]; [contradiction|].
  cbn [List.length Re.longest_first].
  change (S (List.length w)) with (List.length (c :: w)).
  rewrite firstn_length_app, skipn_length_app.
  cbn [Re.extend option_map app Re.run_length Re.accepts]. rewrite Hd.
  reflexivity.
Qed.

(** ** Masks *)

Lemma range_succ (n : nat) :
  range (Z.of_nat (S n)) = (range (Z.of_nat n) ++ [Z.of_nat n])%list.
Proof.
  unfold range. rewrite !Nat2Z.id, seq_S, map_app. reflexivity.
Qed.

Lemma mask_step (mask w k : Z) :
  0 <= w -> 0 <= k ->
  Z.lor (Z.lor mask (Z.shiftl (Z.ones w) k)) (Z.shiftl 1 (w + k))
  = Z.lor mask (Z.shiftl (Z.ones (w + 1)) k).
Proof.
  intros Hw Hk. rewrite <- Z.lor_assoc. f_equal.
  apply Z.bits_inj'. intros i Hi.
  rewrite Z.shiftl_1_l, Z.lor_spec, Z.pow2_bits_eqb, !Z.shiftl_spec by lia.
  destruct (Z.ltb_spec i k) as [Hlt|Hge].
  - rewrite !Z.testbit_neg_r by lia. cbn.
    destruct (Z.eqb_spec (w + k) i); [lia | reflexivity].
  - rewrite !Z.testbit_ones_nonneg by lia.
    destruct (Z.ltb_spec (i - k) w), (Z.ltb_spec (i - k) (w + 1)),
      (Z.eqb_spec (w + k) i); cbn; try reflexivity; lia.
Qed.

(** The mask loop sets the bits [k .. k+w-1]. *)
Lemma or_field_bits_value (mask : Z) (field : Field.t) :
  0 <= Field.width field -> 0 <= Field.offset field ->
  or_field_bits mask field
  = Ok (Z.lor mask (Z.shiftl (Z.ones (Field.width field)) (Field.offset field))).
Proof.
  intros Hw Hk. unfold or_field_bits.
  rewrite <- (Z2Nat.id (Field.width field)) by exact Hw.
  generalize (Z.to_nat (Field.width field)) as n. clear Hw.
  induction n as [|n IH].
  - cbn. now rewrite Z.shiftl_0_l, Z.lor_0_r.
  - rewrite range_succ, fold_left_app, IH. cbn [fold_left rbind].
    unfold shl1. destruct (Z.ltb_spec (Z.of_nat n + Field.offset field) 0); [lia|].
    cbn [rbind]. rewrite mask_step by lia. now rewrite Nat2Z.inj_succ.
Qed.

















(** ** Structural equality *)

Lemma list_eq_iff {A : Type} (eq : A -> A -> bool) :
  (forall a b, eq a b = true <-> a = b) ->
  forall l1 l2, list_eq eq l1 l2 = true <-> l1 = l2.
Proof.
  intros Heq l1 l2. unfold list_eq. split.
  - destruct (Nat.eqb_spec (List.length l1) (List.length l2)) as [Hlen|];
      [|discriminate].
    cbn [negb]. revert l2 Hlen.
    induction l1 as [|a l1 IH]; intros [|b l2] Hlen H; try discriminate;
      [reflexivity|].
    cbn in H. apply andb_true_iff in H. destruct H as [Hab Hl].
    apply Heq in Hab. injection Hlen as Hlen. f_equal; auto.
  - intros <-. rewrite Nat.eqb_refl. cbn [negb].
    induction l1 as [|a l1 IH]; [reflexivity|].
    cbn. rewrite IH, andb_true_r. now apply Heq.
Qed.

Ltac eq_chain :=
  repeat match goal with
         | |- context [String.eqb ?a ?b] => destruct (String.eqb_spec a b)
         | |- context [Z.eqb ?a ?b] => destruct (Z.eqb_spec a b)
         | |- context [Bool.eqb ?a ?b] => destruct (Bool.eqb_spec a b)
         end; cbn [negb].

Lemma Field_eq_iff (f g : Field.t) : Field.eq f g = true <-> f = g.
Proof.
  destruct f, g. unfold Field.eq. cbn [Field.name Field.description
    Field.offset Field.width Field.readonly].
  eq_chain; split; intros H; try discriminate; try congruence.
Qed.

Lemma Register_eq_iff (r s : Register.t) : Register.eq r s = true <-> r = s.
Proof.
  pose proof (list_eq_iff Field.eq Field_eq_iff) as Hfields.
  destruct r as [s1 o1 n1 d1 t1 f1 v1 x1], s as [s2 o2 n2 d2 t2 f2 v2 x2].
  unfold Register.eq. cbn [Register.size Register.offset Register.name
    Register.description Register.type Register.fields Register.reserved
    Register.reset].
  specialize (Hfields f1 f2).
  destruct (list_eq Field.eq f1 f2).
  - assert (f1 = f2) by now apply Hfields. subst.
    eq_chain; split; intros E; try discriminate; try congruence.
  - assert (f1 <> f2) by (intros E; apply Hfields in E; discriminate).
    eq_chain; split; intros E; try discriminate; try congruence.
Qed.

Lemma Peripheral_eq_iff (p q : Peripheral.t) :
  Peripheral.eq p q = true
  <-> Peripheral.name p = Peripheral.name q
      /\ Peripheral.description p = Peripheral.description q
      /\ Peripheral.registers p = Peripheral.registers q.
Proof.
  pose proof (list_eq_iff Register.eq Register_eq_iff
                (Peripheral.registers p) (Peripheral.registers q)) as Hregs.
  unfold Peripheral.eq. eq_chain;
    try (split; [discriminate | tauto]).
  rewrite Hregs. tauto.
Qed.

(** ** Rendering *)

Lemma union_steps_raise (p : Peripheral.t) (v : Z) (e : exn)
  (registers : list Register.t) :
  fold_left (union_step p v) registers (Raise e) = Raise e.
Proof. induction registers as [|r rs IH]; [reflexivity | exact IH]. Qed.

Lemma union_steps_returned (p : Peripheral.t) (v1 v2 : Z)
  (registers : list Register.t) (output : list string) (o1 o2 : stdout) :
  returned (fold_left (union_step p v1) registers (Ok (output, o1)))
  = returned (fold_left (union_step p v2) registers (Ok (output, o2))).
Proof.
  revert output o1 o2. induction registers as [|r rs IH]; intros output o1 o2;
    [reflexivity|].
  cbn [fold_left]. unfold union_step at 2 4. cbn [rbind fst snd].
  destruct (Z.of_nat (List.length (Register.fields r)) <? 1); [apply IH|].
  destruct (register_union p r) as [union|e]; cbn [rbind].
  - apply IH.
  - now rewrite !union_steps_raise.
Qed.

(** ** A peripheral without registers *)

Lemma main_loop_app (args : Args.t) (output : bool) (st : run)
  (before after : list Xml.Element) :
  main_loop args output st (before ++ after)
  = (let* st' := main_loop args output st before in
     main_loop args output st' after).
Proof.
  revert st. induction before as [|x before IH]; intros st; [reflexivity|].
  cbn [app main_loop]. destruct (main_step args output st x); cbn [rbind]; auto.
Qed.

(** ** Register-level gap filling *)

(** A lone register away from offset 0 gets two reserved registers in
    front, both at the offset before its own. *)
Lemma normalize_registers_single (r : Register.t) :
  Register.offset r <> 0 ->
  normalize_registers [r]
  = [Register.new_reserved 0 (Register.offset r - 1);
     Register.new_reserved 1 (Register.offset r - 1); r].
Proof.
  intros H. unfold normalize_registers. cbn [sort fold_right insert].
  destruct (Z.eqb_spec (Register.offset r) 0) as [|_]; [contradiction|].
  cbn [negb]. unfold fill_register_gaps.
  cbn [List.length Nat.sub seq fold_left]. unfold register_gap_step.
  cbn [nth_error Nat.add Register.offset Register.size Register.new_reserved].
  replace (Register.offset r - (Register.offset r - 1 + 0)) with 1 by lia.
  replace (Register.offset r - 1 + 0) with (Register.offset r - 1) by lia.
  cbn [Z.ltb Z.compare app sort fold_right insert].
  unfold Register.lt. cbn [Register.offset Register.new_reserved].
  destruct (Z.ltb_spec (Register.offset r - 1) (Register.offset r)); [|lia].
  cbn [insert Register.offset Register.new_reserved].
  now rewrite Z.ltb_irrefl.
Qed.

(** ** Fields that cannot be parsed *)

(** A field element without the offset and width pair and without a
    [bitRange] raises [NameError]: the message of the failure branch
    reads the unbound variable [name]. *)
Lemma load_field_without_bits (field : Xml.Element) :
  Xml.find "bitOffset" field = None \/ Xml.find "bitWidth" field = None ->
  Xml.find "bitRange" field = None ->
  load_field field = Throw (NameError "name").
Proof.
  intros Hpair Hrange. unfold load_field. rewrite Hrange.
  destruct Hpair as [H|H]; rewrite H;
    [|destruct (Xml.find "bitOffset" field)]; reflexivity.
Qed.

(** The failure message cannot be built, so neither failure branch
    reaches its [return []]. *)
Lemma print_failure_raises (R : Type) :
  @print_failure R = Throw (NameError "name").
Proof. reflexivity. Qed.

Lemma load_bitRange_no_match (bitRange_text : string) :
  Re.match_ bitRange_re bitRange_text = None ->
  load_bitRange bitRange_text = Throw AttributeError.
Proof. intros H. unfold load_bitRange. now rewrite H. Qed.

Lemma load_bitRange_never_returns (bitRange_text : string)
  (r : list Register.t) :
  load_bitRange bitRange_text <> Return r.
Proof.
  unfold load_bitRange.
  destruct (Re.match_ bitRange_re bitRange_text) as [m|]; [|discriminate].
  destruct (Nat.ltb (List.length m) 2).
  - rewrite print_failure_raises. discriminate.
  - destruct (Py.int (nth 0 m "") 10); cbn; [|discriminate].
    destruct (Py.int (nth 1 m "") 10); cbn; discriminate.
Qed.

(** No field element makes the loader leave with a list: a field is
    loaded or an exception is raised. *)
Lemma load_field_never_returns (field : Xml.Element) (r : list Register.t) :
  load_field field <> Return r.
Proof.
  unfold load_field.
  assert (Hbits :
    forall bits : flow (list Register.t) (str_or_int * str_or_int),
      bits <> Return r ->
      (x <- bits ;;
       readonly <-
         match Xml.find "access" field with
         | Some access_xml =>
             access_text <- text_strip access_xml ;;
             Next (String.eqb access_text "read-only")
         | None => Next false
         end ;;
       offset <- int_of (fst x) ;;
       width <- int_of (snd x) ;;
       Next (Field.new (get_xml_text "name" field)
               (get_xml_text "description" field) offset width readonly))
      <> Return r).
  { intros [[fo fw]|r'|e] Hb; cbn [bind]; [|congruence|discriminate].
    destruct (Xml.find "access" field) as [access_xml|]; cbn [bind].
    - unfold text_strip. destruct (Xml.text access_xml); cbn [bind];
        [|discriminate].
      destruct fo as [so|zo]; cbn [fst snd int_of lift];
        [destruct (Py.int so 10); cbn [bind lift]; [|discriminate]|];
        (destruct fw as [sw|zw]; cbn [int_of lift bind];
         [destruct (Py.int sw 10); cbn [bind lift]; discriminate
         |discriminate]).
    - destruct fo as [so|zo]; cbn [fst snd int_of lift];
        [destruct (Py.int so 10); cbn [bind lift]; [|discriminate]|];
        (destruct fw as [sw|zw]; cbn [int_of lift bind];
         [destruct (Py.int sw 10); cbn [bind lift]; discriminate
         |discriminate]). }
  apply Hbits.
  destruct (Xml.find "bitOffset" field) as [bo|],
           (Xml.find "bitWidth" field) as [bw|].
  - unfold text_strip. destruct (Xml.text bo); cbn [bind]; [|discriminate].
    destruct (Xml.text bw); cbn [bind]; discriminate.
  - destruct (Xml.find "bitRange" field) as [br|];
      [|rewrite print_failure_raises; discriminate].
    unfold text_strip. destruct (Xml.text br); cbn [bind]; [|discriminate].
    apply load_bitRange_never_returns.
  - destruct (Xml.find "bitRange" field) as [br|];
      [|rewrite print_failure_raises; discriminate].
    unfold text_strip. destruct (Xml.text br); cbn [bind]; [|discriminate].
    apply load_bitRange_never_returns.
  - destruct (Xml.find "bitRange" field) as [br|];
      [|rewrite print_failure_raises; discriminate].
    unfold text_strip. destruct (Xml.text br); cbn [bind]; [|discriminate].
    apply load_bitRange_never_returns.
Qed.

(** * The claims *)

(** C1.  On a peripheral whose only register sits at byte offset 4 the
    loader puts no register at offset 0: the reserved register it
    inserts has size 0 and offset 3, and the gap scan adds one of size
    1 at offset 3. *)
Theorem first_register_not_at_offset_0 :
  exists p,
    load_peripheral uart_at_4 = Ok (Some p)
    /\ map (fun r => (Register.offset r, Register.size r, Register.reserved r))
         (Peripheral.registers p)
       = [(3, 0, true); (3, 1, true); (4, 32, false)].
Proof. eexists. split; vm_compute; reflexivity. Qed.

(** C2, as stated, fails: two fields that share no bit and end before
    bit 32, one of them zero bits wide, leave bits 8 to 11 in two
    fields. *)
Lemma zero_width_field_overlap :
  zero_width_fields <> []
  /\ pairwise_disjoint zero_width_fields
  /\ Forall (fun f => field_end f <= 32) zero_width_fields
  /\ List.length (holders 8 (normalize_fields zero_width_fields)) = 2%nat
  /\ ~ covers 0 32 (normalize_fields zero_width_fields).
Proof.
  split; [discriminate|]. split.
  { cbn [zero_width_fields pairwise_disjoint]. split; [|split; [constructor | exact I]].
    constructor; [|constructor]. unfold disjoint, field_end. cbn. lia. }
  split.
  { unfold zero_width_fields, field_end.
    constructor; [cbn; lia|]. constructor; [cbn; lia | constructor]. }
  split; [reflexivity|].
  intros [_ H]. specialize (H 8 ltac:(lia)). vm_compute in H. discriminate.
Qed.

(** C2 (amended).  For a register with at least one field, when every
    field has an offset of at least 0 and a width of at least 1, ends
    by bit 32 and shares no bit with another, the normalised fields
    tile [[0, 32)] in list order, every bit of the range lies in
    exactly one field, and the fields added to the given ones all have
    an empty name and are read-only. *)
Theorem normalize_fields_covers (fields : list Field.t) :
  fields <> [] ->
  Forall (fun f => 0 <= Field.offset f /\ 1 <= Field.width f) fields ->
  Forall (fun f => field_end f <= 32) fields ->
  pairwise_disjoint fields ->
  tiles 0 32 (normalize_fields fields)
  /\ covers 0 32 (normalize_fields fields)
  /\ exists synthesized,
       Permutation (normalize_fields fields) (fields ++ synthesized)
       /\ Forall is_reserved synthesized.
Proof.
  intros Hne Hpos Hin Hdis.
  pose proof (normalize_fields_tiles fields Hne Hpos Hin Hdis) as Ht.
  split; [exact Ht|]. split; [now apply tiles_covers|].
  apply normalize_fields_adds_reserved.
Qed.

Lemma normalize_fields_covers_witness :
  (en_and_mode <> []
   /\ Forall (fun f => 0 <= Field.offset f /\ 1 <= Field.width f) en_and_mode
   /\ Forall (fun f => field_end f <= 32) en_and_mode
   /\ pairwise_disjoint en_and_mode)
  /\ tiles 0 32 (normalize_fields en_and_mode)
  /\ covers 0 32 (normalize_fields en_and_mode)
  /\ exists synthesized,
       Permutation (normalize_fields en_and_mode) (en_and_mode ++ synthesized)
       /\ Forall is_reserved synthesized.
Proof.
  assert (Hne : en_and_mode <> []) by discriminate.
  assert (Hpos : Forall (fun f => 0 <= Field.offset f /\ 1 <= Field.width f)
                   en_and_mode).
  { unfold en_and_mode, mode_field.
    constructor; [cbn; lia|]. constructor; [cbn; lia | constructor]. }
  assert (Hin : Forall (fun f => field_end f <= 32) en_and_mode).
  { unfold en_and_mode, mode_field, field_end.
    constructor; [cbn; lia|]. constructor; [cbn; lia | constructor]. }
  assert (Hdis : pairwise_disjoint en_and_mode).
  { unfold en_and_mode, mode_field. cbn [pairwise_disjoint].
    split; [|split; [constructor | exact I]].
    constructor; [|constructor]. unfold disjoint, field_end. cbn. lia. }
  split; [auto|].
  exact (normalize_fields_covers en_and_mode Hne Hpos Hin Hdis).
Defined.

(** A field with a negative offset, one that ends before bit 32 and
    overlaps nothing, leaves fields outside [[0, 32)]. *)
Lemma negative_offset_field_outside :
  pairwise_disjoint [Field.new "N" "" (-4) 4 false]
  /\ Forall (fun f => field_end f <= 32) [Field.new "N" "" (-4) 4 false]
  /\ normalize_fields [Field.new "N" "" (-4) 4 false]
     = [reserved_field (-5) 1; Field.new "N" "" (-4) 4 false;
        reserved_field 0 (-5); reserved_field (-5) 37]
  /\ ~ covers 0 32 (normalize_fields [Field.new "N" "" (-4) 4 false]).
Proof.
  split; [cbn; split; [constructor | exact I]|].
  split; [constructor; [unfold field_end; cbn; lia | constructor]|].
  split; [reflexivity|].
  intros [H _]. inversion H as [|? ? [Hlo _] _]; subst.
  cbn in Hlo. lia.
Qed.

(** What the loader does with every range: of [[a:b]], [a] and [b]
    strings of decimal digits, it takes [a] as the offset and
    [b - a + 1] as the width. *)
Lemma load_bitRange_first_is_offset (a b : list ascii) :
  a <> [] -> b <> [] ->
  forallb is_digit a = true -> forallb is_digit b = true ->
  load_bitRange (str ("["%char :: a ++ ":"%char :: b ++ ["]"%char]))
  = Next (IsInt (decimal a), IsInt (decimal b - decimal a + 1)).
Proof. exact (load_bitRange_digits a b). Qed.

(** C3.  Of the field given as [[7:4]], most significant bit first,
    the loader takes the first number as the offset: it builds a field
    at offset 7 of width -2, where the claim has offset 4 and width
    4. *)
Theorem bitRange_7_4_is_offset_7 :
  load_bitRange "[7:4]" = Next (IsInt 7, IsInt (-2))
  /\ load_field field_7_4 = Next (Field.new "MODE" "Mode" 7 (-2) false)
  /\ load_field field_7_4 <> Next (Field.new "MODE" "Mode" 4 4 false).
Proof.
  split; [reflexivity|]. split; [reflexivity|].
  vm_compute. discriminate.
Qed.

(** C4.  For the field MODE, 4 bits at offset 4, the renderer writes
    the literal [0xF0] shifted left by the position macro: the constant
    is worth [0xF00], where [((1 << 4) - 1) << 4] is [0xF0]. *)
Theorem Msk_is_shifted_twice :
  field_macros uart ctrl_register [mode_field] mode_field
  = Ok (C.define "UART_CTRL_MODE_Pos" (Pos_expr ctrl_register mode_field)
        ++ C.define "UART_CTRL_MODE_Msk"
             (Msk_expr uart ctrl_register mode_field 240)
        ++ Val_line uart ctrl_register mode_field
        ++ ctor_line uart ctrl_register mode_field)
  /\ (exists union,
        returned (print_registers uart 0 []) = Ok [union]
        /\ occurs_in
             (C.define "UART_CTRL_MODE_Msk"
                (Msk_expr uart ctrl_register mode_field 240)) union = true)
  /\ C.show (Msk_expr uart ctrl_register mode_field 240)
     = "((uint32_t)(0xF0 << UART_CTRL_MODE_Pos))"
  /\ C.eval (Pos_env uart ctrl_register mode_field)
       (Msk_expr uart ctrl_register mode_field 240) = Some 3840
  /\ Z.shiftl (Z.shiftl 1 4 - 1) 4 = 240.
Proof.
  split; [vm_compute; reflexivity|].
  split; [eexists; split; vm_compute; reflexivity|].
  repeat split; vm_compute; reflexivity.
Qed.

(** C5.  On a register whose only field starts at bit 4 the reserved
    field put at offset 0 is 3 bits wide, not 4; the gap scan then adds
    a second one for bit 3. *)
Theorem first_reserved_field_one_bit_short :
  normalize_fields [mode_field]
  = [reserved_field 0 3; reserved_field 3 1; mode_field; reserved_field 8 24]
  /\ filter (fun g => Field.offset g =? 0) (normalize_fields [mode_field])
     = [reserved_field 0 3].
Proof. split; reflexivity. Qed.

(** C6.  Of the two trailing digits of [TIMER10] one is stripped, and
    deriving the name of the result strips the other. *)
Theorem canonical_name_not_idempotent :
  Peripheral.canonical_name "TIMER10" = "TIMER1"
  /\ Peripheral.canonical_name (Peripheral.canonical_name "TIMER10") = "TIMER".
Proof. split; reflexivity. Qed.

(** C7.  A field with no bit information makes [load_registers] raise
    [NameError], and one with a malformed [bitRange] makes it raise
    [AttributeError]; neither returns the empty list, and the loop of
    [main] ends there, the next peripheral unread. *)
Theorem unparsable_field_ends_the_run :
  load_registers "UART0" (Xml.find "registers" uart_unparsable)
  = Raise (NameError "name")
  /\ load_registers "UART0" (Xml.find "registers" uart_bad_range)
     = Raise AttributeError
  /\ load_peripheral uart_unparsable = Raise (NameError "name")
  /\ main_loop run_args true (start []) [uart_unparsable; timer_good]
     = Raise (NameError "name")
  /\ exists st, main_loop run_args true (start []) [timer_good] = Ok st
                /\ List.length (peripherals st) = 1%nat.
Proof.
  repeat split; try (vm_compute; reflexivity).
  eexists. split; vm_compute; reflexivity.
Qed.

(** C8.  Peripheral equality is reflexive and symmetric; it holds
    exactly when the canonical names, the descriptions and the register
    lists agree, the registers being compared attribute by attribute,
    fields included; so two peripherals that differ in [realname] and
    [path] only are equal. *)
Theorem Peripheral_eq_structural :
  (forall p, Peripheral.eq p p = true)
  /\ (forall p q, Peripheral.eq p q = Peripheral.eq q p)
  /\ (forall p q,
        Peripheral.eq p q = true
        <-> Peripheral.name p = Peripheral.name q
            /\ Peripheral.description p = Peripheral.description q
            /\ Peripheral.registers p = Peripheral.registers q)
  /\ (forall r s, Register.eq r s = true <-> r = s)
  /\ (forall f g, Field.eq f g = true <-> f = g)
  /\ (forall p realname' path',
        Peripheral.eq p
          (Peripheral.Build (Peripheral.name p) realname'
             (Peripheral.description p) (Peripheral.registers p) path')
        = true).
Proof.
  split; [|split; [|split; [|split; [|split]]]].
  - intros p. apply Peripheral_eq_iff. tauto.
  - intros p q. apply eq_true_iff_eq. rewrite !Peripheral_eq_iff.
    split; intros (Hn & Hd & Hr); auto.
  - exact Peripheral_eq_iff.
  - exact Register_eq_iff.
  - exact Field_eq_iff.
  - intros p realname' path'. apply Peripheral_eq_iff. cbn. tauto.
Qed.

(** C9.  What the renderer returns depends on the peripheral alone:
    not on the verbosity, and not on what has been printed before, so a
    second rendering returns the same text as the first. *)
Theorem render_is_deterministic (p : Peripheral.t) (v1 v2 : Z) (o1 o2 : stdout) :
  returned (print_registers p v1 o1) = returned (print_registers p v2 o2)
  /\ fst (print_peripheral p v1 o1) = fst (print_peripheral p v2 o2).
Proof.
  split; [|reflexivity].
  exact (union_steps_returned p v1 v2 (Peripheral.registers p) [] o1 o2).
Qed.

(** C10.  A peripheral element that is not derived and has no
    [registers] child makes [load_registers] iterate over [None]: the
    [TypeError] leaves [load_peripheral] and ends the loop of [main],
    whatever comes after the element. *)
Theorem missing_registers_ends_the_run (peripheral_xml : Xml.Element) :
  Xml.find "registers" peripheral_xml = None ->
  is_derived peripheral_xml = false ->
  load_registers (get_xml_text "name" peripheral_xml)
    (Xml.find "registers" peripheral_xml) = Raise TypeError
  /\ load_peripheral peripheral_xml = Raise TypeError
  /\ forall args output st st' before after,
       main_loop args output st before = Ok st' ->
       main_loop args output st (before ++ peripheral_xml :: after)
       = Raise TypeError.
Proof.
  intros Hfind Hder.
  assert (Hload : load_peripheral peripheral_xml = Raise TypeError).
  { unfold load_peripheral. now rewrite Hfind. }
  split; [now rewrite Hfind|]. split; [exact Hload|].
  intros args output st st' before after Hbefore.
  rewrite main_loop_app, Hbefore. cbn [rbind main_loop].
  unfold main_step. now rewrite Hder, Hload.
Qed.

Lemma missing_registers_ends_the_run_witness :
  Xml.find "registers" uart_no_registers = None
  /\ is_derived uart_no_registers = false
  /\ load_peripheral uart_no_registers = Raise TypeError
  /\ main_loop run_args true (start [])
       ([timer_good] ++ uart_no_registers :: [timer_good])
     = Raise TypeError.
Proof.
  split; [reflexivity|]. split; [reflexivity|].
  pose proof (missing_registers_ends_the_run uart_no_registers
                eq_refl eq_refl) as (_ & Hload & Hloop).
  split; [exact Hload|].
  eapply Hloop. vm_compute. reflexivity.
Defined.

(** * Further properties *)

(** ** Loops of the loader *)

Lemma for_each_never_returns {R A B : Type} (body : A -> flow R B) :
  (forall a r, body a <> Return r) ->
  forall l r, for_each body l <> Return r.
Proof.
  intros Hbody l. induction l as [|a l IH]; intros r; [discriminate|].
  cbn [for_each]. destruct (body a) as [b|r'|e] eqn:Ea; cbn [bind].
  - destruct (for_each body l) as [bs|r'|e] eqn:El; cbn [bind];
      [discriminate | | discriminate].
    exfalso. exact (IH r' eq_refl).
  - exfalso. exact (Hbody a r' Ea).
  - discriminate.
Qed.

Lemma for_each_length {R A B : Type} (body : A -> flow R B) (l : list A)
  (bs : list B) :
  for_each body l = Next bs -> List.length bs = List.length l.
Proof.
  revert bs. induction l as [|a l IH]; intros bs.
  - cbn. now intros [= <-].
  - cbn [for_each]. destruct (body a) as [b|r'|e]; cbn [bind]; try discriminate.
    destruct (for_each body l) as [bs'|r'|e]; cbn [bind]; try discriminate.
    intros [= <-]. cbn. f_equal. now apply IH.
Qed.

Lemma load_register_never_returns (register : Xml.Element)
  (r : list Register.t) :
  load_register register <> Return r.
Proof.
  unfold load_register.
  destruct (Py.int (get_xml_text "size" register) 16); cbn [lift bind];
    [|discriminate].
  destruct (Py.int (get_xml_text "addressOffset" register) 16);
    cbn [lift bind]; [|discriminate].
  assert (Hfields :
    forall fs : flow (list Register.t) (list Field.t), fs <> Return r ->
    forall k : list Field.t -> Register.t,
      (fields <- fs ;; Next (k fields)) <> Return r).
  { intros [x|r'|e] H k; cbn [bind]; [discriminate | congruence | discriminate]. }
  destruct (String.eqb (get_xml_text "resetValue" register) ""); cbn [bind].
  - apply Hfields with (k := fun fields => Register.new _ _ _ _ _ (normalize_fields fields) false _).
    destruct (Xml.find "fields" register); [|discriminate].
    apply for_each_never_returns. exact load_field_never_returns.
  - destruct (Py.int (get_xml_text "resetValue" register) 16);
      cbn [lift bind]; [|discriminate].
    apply Hfields with (k := fun fields => Register.new _ _ _ _ _ (normalize_fields fields) false _).
    destruct (Xml.find "fields" register); [|discriminate].
    apply for_each_never_returns. exact load_field_never_returns.
Qed.

(** Every register the loader builds is not reserved. *)
Lemma load_register_not_reserved (register : Xml.Element) (r : Register.t) :
  load_register register = Next r -> Register.reserved r = false.
Proof.
  unfold load_register.
  destruct (Py.int (get_xml_text "size" register) 16); cbn [lift bind];
    [|discriminate].
  destruct (Py.int (get_xml_text "addressOffset" register) 16);
    cbn [lift bind]; [|discriminate].
  destruct (String.eqb (get_xml_text "resetValue" register) ""); cbn [bind].
  - destruct (match Xml.find "fields" register with
              | Some fields_xml => for_each load_field (Xml.children fields_xml)
              | None => Next []
              end); cbn [bind]; try discriminate.
    now intros [= <-].
  - destruct (Py.int (get_xml_text "resetValue" register) 16);
      cbn [lift bind]; [|discriminate].
    destruct (match Xml.find "fields" register with
              | Some fields_xml => for_each load_field (Xml.children fields_xml)
              | None => Next []
              end); cbn [bind]; try discriminate.
    now intros [= <-].
Qed.

Lemma for_each_forall {R A B : Type} (body : A -> flow R B) (P : B -> Prop) :
  (forall a b, body a = Next b -> P b) ->
  forall l bs, for_each body l = Next bs -> Forall P bs.
Proof.
  intros Hbody l. induction l as [|a l IH]; intros bs.
  - cbn. intros [= <-]. constructor.
  - cbn [for_each]. destruct (body a) as [b|r'|e] eqn:Ea; cbn [bind];
      try discriminate.
    destruct (for_each body l) as [bs'|r'|e]; cbn [bind]; try discriminate.
    intros [= <-]. constructor; [now apply (Hbody a) | now apply IH].
Qed.

Lemma load_registers_shape (peripheral_name : string) (registers : Xml.Element)
  (output : list Register.t) :
  load_registers peripheral_name (Some registers) = Ok output ->
  for_each load_register (Xml.children registers) = Next output.
Proof.
  unfold load_registers.
  destruct (for_each load_register (Xml.children registers)) as [o|r|e] eqn:E;
    [now intros [= <-] | | discriminate].
  exfalso. exact (for_each_never_returns _ load_register_never_returns _ r E).
Qed.

(** ** What register normalisation adds *)

Lemma Register_lt_key (a b : Register.t) :
  Register.lt a b = (Register.offset a <? Register.offset b).
Proof. reflexivity. Qed.

Lemma new_reserved_is_reserved (size offset : Z) :
  is_reserved_register (Register.new_reserved size offset).
Proof. repeat split. Qed.

Lemma register_gap_steps_add (n start : nat) (registers : list Register.t) :
  exists added,
    fold_left register_gap_step (seq start n) registers
    = (registers ++ added)%list
    /\ Forall is_reserved_register added.
Proof.
  revert start registers. induction n as [|n IH]; intros start registers.
  - exists []. split; [now rewrite app_nil_r | constructor].
  - cbn [seq fold_left].
    assert (Hstep : exists one,
               register_gap_step registers start = (registers ++ one)%list
               /\ Forall is_reserved_register one).
    { unfold register_gap_step.
      destruct (nth_error registers start) as [ri|];
        [|exists []; split; [now rewrite app_nil_r | constructor]].
      destruct (nth_error registers (start + 1)) as [ri1|];
        [|exists []; split; [now rewrite app_nil_r | constructor]].
      destruct (0 <? _).
      - eexists. split; [reflexivity|].
        constructor; [apply new_reserved_is_reserved | constructor].
      - exists []. split; [now rewrite app_nil_r | constructor]. }
    destruct Hstep as (one & -> & Hone).
    destruct (IH (S start) (registers ++ one)%list) as (added & -> & Hadded).
    exists (one ++ added)%list. split; [now rewrite app_assoc|].
    apply Forall_app. now split.
Qed.

Lemma normalize_registers_adds_reserved (registers : list Register.t) :
  exists added,
    Permutation (normalize_registers registers) (registers ++ added)
    /\ Forall is_reserved_register added.
Proof.
  unfold normalize_registers.
  set (s := sort Register.lt registers).
  assert (Hs : Permutation s registers) by apply sort_perm.
  set (pre := match s with
              | r0 :: _ =>
                  if negb (Register.offset r0 =? 0)
                  then Register.new_reserved 0 (Register.offset r0 - 1) :: s
                  else s
              | [] => s
              end).
  assert (Hpre : exists one, Permutation pre (registers ++ one)
                             /\ Forall is_reserved_register one).
  { subst pre. destruct s as [|r0 s'].
    - exists []. rewrite app_nil_r. split; [exact Hs | constructor].
    - destruct (negb (Register.offset r0 =? 0)).
      + eexists [_]. split.
        * rewrite <- Hs. apply Permutation_cons_append.
        * constructor; [apply new_reserved_is_reserved | constructor].
      + exists []. rewrite app_nil_r. split; [exact Hs | constructor]. }
  destruct Hpre as (one & Hone & Hres).
  unfold fill_register_gaps.
  destruct (register_gap_steps_add (List.length pre - 1) 0 pre)
    as (added & -> & Hadded).
  exists (one ++ added)%list. split.
  - etransitivity; [apply sort_perm|].
    rewrite app_assoc. now apply Permutation_app_tail.
  - apply Forall_app. now split.
Qed.

Lemma normalize_registers_sorted (registers : list Register.t) :
  ascending Register.offset (normalize_registers registers).
Proof.
  unfold normalize_registers.
  apply (sort_ascending Register.offset Register.lt Register_lt_key).
Qed.

Lemma normalize_registers_nonempty (registers : list Register.t) :
  registers <> [] -> normalize_registers registers <> [].
Proof.
  intros Hne E.
  destruct (normalize_registers_adds_reserved registers) as (added & Hp & _).
  rewrite E in Hp. apply Permutation_nil in Hp.
  destruct registers; [contradiction | discriminate].
Qed.

(** ** What the loader returns *)

Lemma load_registers_elements (peripheral_name : string)
  (registers : Xml.Element) (output : list Register.t) :
  load_registers peripheral_name (Some registers) = Ok output ->
  List.length output = List.length (Xml.children registers)
  /\ Forall (fun r => Register.reserved r = false) output
  /\ (output = [] <-> Xml.children registers = []).
Proof.
  intros H. apply load_registers_shape in H.
  pose proof (for_each_length _ _ _ H) as Hlen.
  split; [exact Hlen|]. split.
  - exact (for_each_forall _ _ load_register_not_reserved _ _ H).
  - destruct output, (Xml.children registers); cbn in Hlen;
      split; intros E; try reflexivity; try discriminate.
Qed.

(** ** The name pattern in closed form *)

Lemma longest_first_none {X : Type} (n : nat) (try : nat -> option X) :
  (forall k, (1 <= k <= n)%nat -> try k = None) ->
  Re.longest_first n try = None.
Proof.
  induction n as [|n IH]; intros H; [reflexivity|].
  cbn [Re.longest_first]. rewrite (H (S n)) by lia. apply IH.
  intros k Hk. apply H. lia.
Qed.

Lemma run_length_prefix (a : Re.atom) (l : list ascii) :
  forallb (Re.accepts a) (firstn (Re.run_length a l) l) = true
  /\ match skipn (Re.run_length a l) l with
     | c :: _ => Re.accepts a c = false
     | [] => True
     end.
Proof.
  induction l as [|c l IH]; [now split|].
  cbn [Re.run_length]. destruct (Re.accepts a c) eqn:E.
  - cbn [firstn skipn forallb]. rewrite E. exact IH.
  - cbn. now split.
Qed.

Lemma run_length_le (a : Re.atom) (l : list ascii) :
  (Re.run_length a l <= List.length l)%nat.
Proof.
  induction l as [|c l IH]; cbn; [lia|].
  destruct (Re.accepts a c); cbn; lia.
Qed.

Lemma word_not_newline (c : ascii) :
  is_word c = true -> Nat.eqb (code c) 10 = false.
Proof.
  intros H. unfold is_word, is_digit, between in H.
  destruct (Nat.eqb_spec (code c) 10) as [E|]; [|reflexivity].
  rewrite E in H. cbn in H. discriminate.
Qed.

Lemma not_word_not_digit (c : ascii) :
  is_word c = false -> is_digit c = false.
Proof.
  intros H. destruct (is_digit c) eqn:E; [|reflexivity].
  unfold is_word in H. rewrite E in H. now rewrite !orb_true_r in H.
Qed.

(** No end of line inside a run of word characters. *)
Lemma at_eol_inside (u rest : list ascii) :
  u <> [] -> forallb is_word u = true -> Re.at_eol (u ++ rest) = false.
Proof.
  destruct u as [|c u]; [contradiction|]. intros _ H.
  cbn in H. apply andb_true_iff in H. destruct H as [Hc Hu].
  cbn [app Re.at_eol].
  destruct (u ++ rest)%list eqn:E; [|reflexivity].
  now apply word_not_newline.
Qed.

Lemma run_length_digits_app (u rest : list ascii) :
  match rest with c :: _ => is_digit c = false | [] => True end ->
  Re.run_length Re.Digit (u ++ rest) = Re.run_length Re.Digit u.
Proof.
  intros Hrest. induction u as [|c u IH].
  - destruct rest as [|c rest]; [reflexivity|]. cbn. now rewrite Hrest.
  - cbn. destruct (is_digit c); [now rewrite IH | reflexivity].
Qed.

Lemma skipn_nonempty {A : Type} (j : nat) (u : list A) :
  (j < List.length u)%nat -> skipn j u <> [].
Proof.
  intros Hj E. apply (f_equal (@List.length A)) in E.
  rewrite length_skipn in E. cbn in E. lia.
Qed.

Lemma forallb_skipn {A : Type} (f : A -> bool) (j : nat) (u : list A) :
  forallb f u = true -> forallb f (skipn j u) = true.
Proof.
  intros H. apply forallb_forall. intros x Hx.
  rewrite forallb_forall in H. apply H.
  rewrite <- (firstn_skipn j u). apply in_or_app. now right.
Qed.

Lemma run_length_full (a : Re.atom) (u : list ascii) :
  Re.run_length a u = List.length u -> forallb (Re.accepts a) u = true.
Proof.
  induction u as [|c u IH]; [reflexivity|].
  cbn. destruct (Re.accepts a c); [|discriminate].
  intros [= H]. now apply IH.
Qed.

(** [\d+$] after the group: it matches a run [u] of word characters
    followed by [rest] when [u] is a non-empty string of digits and
    [rest] is the end of the line. *)
Lemma digits_then_eol (cap u rest : list ascii) :
  forallb is_word u = true ->
  match rest with c :: _ => is_digit c = false | [] => True end ->
  Re.go [Re.Plus Re.Digit; Re.Eol] None [cap] (u ++ rest)
  = if (negb (Nat.eqb (List.length u) 0) && forallb is_digit u
        && Re.at_eol rest)%bool
    then Some [str cap] else None.
Proof.
  intros Hu Hrest. cbn [Re.go Re.extend option_map].
  rewrite (run_length_digits_app u rest Hrest).
  assert (Hinner : forall j, (j < List.length u)%nat ->
            Re.at_eol (skipn j (u ++ rest)) = false).
  { intros j Hj. rewrite skipn_app.
    apply at_eol_inside; [now apply skipn_nonempty | now apply forallb_skipn]. }
  destruct (Nat.eq_dec (Re.run_length Re.Digit u) (List.length u)) as [Hall|Hnot].
  - rewrite Hall. pose proof (run_length_full _ _ Hall) as Hd.
    cbn [Re.accepts] in Hd.
    change (forallb (Re.accepts Re.Digit) u) with (forallb is_digit u) in Hd.
    rewrite Hd. destruct u as [|c u]; [reflexivity|].
    cbn [List.length Nat.eqb negb andb Re.longest_first].
    change (S (List.length u)) with (List.length (c :: u)).
    rewrite skipn_app, skipn_all, Nat.sub_diag. cbn [skipn app].
    destruct (Re.at_eol rest); [reflexivity|].
    apply longest_first_none. intros k Hk.
    rewrite Hinner; [reflexivity | cbn; lia].
  - assert (Hd : forallb is_digit u = false).
    { destruct (forallb is_digit u) eqn:E; [|reflexivity].
      exfalso. apply Hnot. now apply (run_length_whole Re.Digit). }
    rewrite Hd, andb_false_r. cbn [andb].
    apply longest_first_none. intros k Hk.
    rewrite Hinner; [reflexivity|].
    pose proof (run_length_le Re.Digit u). lia.
Qed.

Lemma go_plus (a : Re.atom) (r : Re.regex) (cur : option (list ascii))
  (caps : list (list ascii)) (l : list ascii) :
  Re.go (Re.Plus a :: r) cur caps l
  = Re.longest_first (Re.run_length a l)
      (fun k => Re.go r (Re.extend cur (firstn k l)) caps (skipn k l)).
Proof. reflexivity. Qed.

Lemma name_pattern (w rest : list ascii) :
  forallb is_word w = true ->
  match rest with c :: _ => is_word c = false | [] => True end ->
  Re.go Peripheral.name_re None [] (w ++ rest)
  = if (Nat.leb 2 (List.length w) && is_digit (last w "0"%char)
        && Re.at_eol rest)%bool
    then Some [str (removelast w)] else None.
Proof.
  intros Hw Hrest.
  assert (Hrest' : match rest with c :: _ => is_digit c = false | [] => True end).
  { destruct rest; [exact I | now apply not_word_not_digit]. }
  unfold Peripheral.name_re. rewrite go_open, go_plus.
  rewrite (run_length_all Re.Word w rest Hw Hrest).
  assert (Htry : forall k, (k <= List.length w)%nat ->
    Re.go [Re.Close; Re.Plus Re.Digit; Re.Eol]
      (Re.extend (Some []) (firstn k (w ++ rest))) [] (skipn k (w ++ rest))
    = if (negb (Nat.eqb (List.length (skipn k w)) 0)
          && forallb is_digit (skipn k w) && Re.at_eol rest)%bool
      then Some [str (firstn k w)] else None).
  { intros k Hk. rewrite firstn_app, skipn_app.
    replace (k - List.length w)%nat with 0%nat by lia.
    cbn [firstn skipn]. rewrite app_nil_r.
    change (Re.extend (Some []) (firstn k w)) with (Some (firstn k w)).
    rewrite go_close. apply digits_then_eol; [|exact Hrest'].
    now apply forallb_skipn. }
  destruct w as [|c0 w0]; [reflexivity|].
  destruct (@exists_last _ (c0 :: w0) ltac:(discriminate)) as (w' & c & E).
  rewrite E in *. clear E c0 w0.
  rewrite last_last, removelast_last, length_app. cbn [List.length].
  rewrite Nat.add_1_r. cbn [Re.longest_first].
  rewrite Htry by (rewrite length_app; cbn; lia).
  rewrite (skipn_all2 (n := S (List.length w')))
    by (rewrite length_app; cbn; lia).
  cbn [List.length Nat.eqb negb andb].
  destruct w' as [|c1 w1]; [reflexivity|].
  cbn [List.length Nat.leb Re.longest_first].
  rewrite Htry by (rewrite length_app; cbn; lia).
  change (S (List.length w1)) with (List.length (c1 :: w1)).
  rewrite firstn_length_app, skipn_length_app.
  cbn [List.length Nat.eqb negb forallb andb]. rewrite andb_true_r.
  destruct (is_digit c && Re.at_eol rest)%bool eqn:Hcond; [reflexivity|].
  apply longest_first_none. intros k Hk.
  rewrite Htry by (rewrite length_app; cbn; lia).
  rewrite skipn_app, forallb_app.
  replace (k - List.length (c1 :: w1))%nat with 0%nat by (cbn; lia).
  cbn [skipn forallb]. rewrite andb_true_r.
  destruct (negb _); [|reflexivity]. cbn [andb].
  destruct (forallb is_digit (skipn k (c1 :: w1))); [|reflexivity].
  cbn [andb]. now rewrite Hcond.
Qed.

Lemma firstn_run_length (a : Re.atom) (l : list ascii) :
  List.length (firstn (Re.run_length a l) l) = Re.run_length a l.
Proof. apply firstn_length_le, run_length_le. Qed.

Lemma canonical_name_closed_form (realname : string) :
  Peripheral.canonical_name realname = strip_one_digit realname.
Proof.
  unfold Peripheral.canonical_name, strip_one_digit, Re.match_.
  set (l := chars realname). set (n := Re.run_length Re.Word l).
  destruct (run_length_prefix Re.Word l) as [Hw Hrest]. fold n in Hw, Hrest.
  rewrite <- (firstn_skipn n l) at 1.
  rewrite (name_pattern (firstn n l) (skipn n l) Hw Hrest).
  unfold n at 1. rewrite firstn_run_length. fold n.
  destruct (Nat.leb 2 n && is_digit (last (firstn n l) "0"%char)
            && Re.at_eol (skipn n l))%bool; reflexivity.
Qed.

(** ** Stripping *)

Lemma chars_str (l : list ascii) : chars (str l) = l.
Proof. apply list_ascii_of_string_of_list_ascii. Qed.

Lemma chars_append (a b : string) : chars (a ++ b) = (chars a ++ chars b)%list.
Proof.
  unfold chars. induction a as [|c a IH]; cbn; [reflexivity | now rewrite IH].
Qed.

Lemma linebreak_is_space (c : ascii) :
  is_linebreak c = true -> is_space c = true.
Proof.
  unfold is_linebreak, is_space, between. intros H.
  apply orb_true_iff in H. apply orb_true_iff.
  destruct H as [H|H]; apply andb_true_iff in H; destruct H as [H1 H2];
    apply Nat.leb_le in H1, H2; [left|right]; apply andb_true_iff;
    split; apply Nat.leb_le; lia.
Qed.

Lemma lstrip_split (l : list ascii) :
  exists p, l = (p ++ lstrip_chars l)%list /\ forallb is_space p = true.
Proof.
  induction l as [|c l (p & Hl & Hp)]; [now exists []|].
  cbn [lstrip_chars]. destruct (is_space c) eqn:E.
  - exists (c :: p). cbn. rewrite E, Hp. split; [now f_equal | reflexivity].
  - now exists [].
Qed.

Lemma lstrip_head (l : list ascii) :
  match lstrip_chars l with c :: _ => is_space c = false | [] => True end.
Proof.
  induction l as [|c l IH]; [exact I|].
  cbn [lstrip_chars]. destruct (is_space c) eqn:E; [exact IH | exact E].
Qed.

Lemma lstrip_spaces (p q : list ascii) :
  forallb is_space p = true -> lstrip_chars (p ++ q) = lstrip_chars q.
Proof.
  induction p as [|c p IH]; [reflexivity|]. cbn. intros H.
  apply andb_true_iff in H. destruct H as [Hc Hp]. rewrite Hc. now apply IH.
Qed.

Lemma lstrip_keeps (a b : list ascii) :
  existsb (fun c => negb (is_space c)) a = true ->
  lstrip_chars (a ++ b) = (lstrip_chars a ++ b)%list.
Proof.
  induction a as [|c a IH]; [discriminate|]. cbn.
  destruct (is_space c); cbn; [exact IH | reflexivity].
Qed.

Lemma lstrip_in (l : list ascii) (c : ascii) :
  In c (lstrip_chars l) -> In c l.
Proof.
  destruct (lstrip_split l) as (p & Hl & _). intros H.
  rewrite Hl. apply in_or_app. now right.
Qed.

Lemma rstrip_in (l : list ascii) (c : ascii) :
  In c (rstrip_chars l) -> In c l.
Proof.
  unfold rstrip_chars. intros H. apply in_rev in H.
  apply lstrip_in in H. now apply in_rev.
Qed.

Lemma rstrip_spaces (x brk : list ascii) :
  forallb is_space brk = true -> rstrip_chars (x ++ brk) = rstrip_chars x.
Proof.
  intros H. unfold rstrip_chars. rewrite rev_app_distr, lstrip_spaces;
    [reflexivity|].
  apply forallb_forall. intros c Hc. apply in_rev in Hc.
  rewrite forallb_forall in H. now apply H.
Qed.

(** Stripping on the left first loses nothing the right strip keeps. *)
Lemma strip_in_rstrip (l : list ascii) (c : ascii) :
  In c (rstrip_chars (lstrip_chars l)) -> In c (rstrip_chars l).
Proof.
  destruct (lstrip_split l) as (p & Hl & Hp).
  pose proof (lstrip_head l) as Hhead.
  destruct (lstrip_chars l) as [|h m] eqn:E; [intros []|].
  intros H. rewrite Hl. unfold rstrip_chars in *.
  rewrite rev_app_distr, lstrip_keeps.
  - rewrite rev_app_distr, rev_involutive. apply in_or_app. now right.
  - apply existsb_exists. exists h. split; [|now rewrite Hhead].
    apply in_rev. rewrite rev_involutive. now left.
Qed.

Lemma strip_trimmed (s : string) : trimmed (chars (Py.strip s)).
Proof.
  unfold Py.strip. rewrite chars_str. unfold trimmed, rstrip_chars.
  rewrite rev_involutive. split; [|apply lstrip_head].
  set (m := lstrip_chars (chars s)).
  pose proof (lstrip_head (chars s)) as Hm. fold m in Hm.
  destruct (lstrip_split (rev m)) as (p & Hrev & Hp).
  destruct (lstrip_chars (rev m)) as [|z q] eqn:E; [exact I|].
  assert (Hm' : m = (rev (z :: q) ++ rev p)%list).
  { rewrite <- rev_app_distr, <- Hrev. now rewrite rev_involutive. }
  destruct (rev (z :: q)) as [|h t] eqn:Er.
  - apply (f_equal (@List.length ascii)) in Er.
    rewrite length_rev in Er. discriminate.
  - rewrite Hm' in Hm. exact Hm.
Qed.

Lemma strip_in (s : string) (c : ascii) :
  In c (chars (Py.strip s)) -> In c (chars s).
Proof.
  unfold Py.strip. rewrite chars_str. intros H.
  apply rstrip_in, lstrip_in in H. exact H.
Qed.

(** ** Lines *)

Lemma splitlines_nil (cur l : list ascii) :
  splitlines_chars cur l = [] -> l = [] /\ cur = [].
Proof.
  revert cur. induction l as [|c l IH]; intros cur.
  - cbn. destruct cur; [auto | discriminate].
  - cbn [splitlines_chars].
    destruct (Nat.eqb (code c) 13).
    + destruct l as [|d l']; [discriminate|].
      destruct (Nat.eqb (code d) 10); discriminate.
    + destruct (is_linebreak c); [discriminate|].
      intros H. apply IH in H. destruct H as [_ H]. discriminate.
Qed.

Lemma CR_is_linebreak (c : ascii) :
  Nat.eqb (code c) 13 = true -> is_linebreak c = true.
Proof.
  intros H. apply Nat.eqb_eq in H. unfold is_linebreak, between.
  now rewrite H.
Qed.

Lemma LF_is_linebreak (c : ascii) :
  Nat.eqb (code c) 10 = true -> is_linebreak c = true.
Proof.
  intros H. apply Nat.eqb_eq in H. unfold is_linebreak, between.
  now rewrite H.
Qed.

(** No line holds a line break. *)
Lemma splitlines_no_break (cur l : list ascii) :
  Forall (fun c => is_linebreak c = false) cur ->
  Forall (Forall (fun c => is_linebreak c = false)) (splitlines_chars cur l).
Proof.
  assert (Hrev : forall x, Forall (fun c => is_linebreak c = false) x ->
                           Forall (fun c => is_linebreak c = false) (rev x)).
  { intros x Hx. apply Forall_forall. intros c Hc. apply in_rev in Hc.
    rewrite Forall_forall in Hx. now apply Hx. }
  remember (List.length l) as n eqn:Hn.
  revert cur l Hn. induction n as [n IH] using lt_wf_ind.
  intros cur l Hn Hcur. destruct l as [|c l].
  - cbn. destruct cur; [constructor|]. constructor; [|constructor].
    now apply Hrev.
  - cbn [splitlines_chars]. cbn in Hn.
    destruct (Nat.eqb (code c) 13).
    + destruct l as [|d l'].
      * constructor; [now apply Hrev | constructor].
      * destruct (Nat.eqb (code d) 10).
        -- constructor; [now apply Hrev|].
           apply (IH (List.length l')); [cbn in Hn; lia | reflexivity | constructor].
        -- constructor; [now apply Hrev|].
           apply (IH (List.length (d :: l'))); [lia | reflexivity | constructor].
    + destruct (is_linebreak c) eqn:E.
      * constructor; [now apply Hrev|].
        apply (IH (List.length l)); [lia | reflexivity | constructor].
      * apply (IH (List.length l)); [lia | reflexivity|].
        now constructor.
Qed.

(** A text of one line at most is a line and a line break. *)
Lemma one_line_split (cur l : list ascii) :
  (List.length (splitlines_chars cur l) <= 1)%nat ->
  exists body brk,
    l = (body ++ brk)%list
    /\ Forall (fun c => is_linebreak c = false) body
    /\ forallb is_space brk = true.
Proof.
  revert cur. induction l as [|c l IH]; intros cur H.
  - exists [], []. repeat split; constructor.
  - cbn [splitlines_chars] in H.
    destruct (Nat.eqb (code c) 13) eqn:Ec.
    + pose proof (linebreak_is_space c (CR_is_linebreak c Ec)) as Hc.
      destruct l as [|d l'].
      * exists [], [c]. cbn. rewrite Hc. repeat split; constructor.
      * destruct (Nat.eqb (code d) 10) eqn:Ed.
        -- cbn [List.length] in H.
           destruct (splitlines_chars [] l') eqn:E; [|cbn [List.length] in H; lia].
           apply splitlines_nil in E. destruct E as [-> _].
           exists [], [c; d]. cbn.
           rewrite Hc, (linebreak_is_space d (LF_is_linebreak d Ed)).
           repeat split; constructor.
        -- cbn [List.length] in H.
           destruct (splitlines_chars [] (d :: l')) eqn:E; [|cbn [List.length] in H; lia].
           apply splitlines_nil in E. destruct E as [E _]. discriminate.
    + destruct (is_linebreak c) eqn:El.
      * cbn [List.length] in H.
        destruct (splitlines_chars [] l) eqn:E; [|cbn [List.length] in H; lia].
        apply splitlines_nil in E. destruct E as [-> _].
        exists [], [c]. cbn. rewrite (linebreak_is_space c El).
        repeat split; constructor.
      * destruct (IH _ H) as (body & brk & -> & Hbody & Hbrk).
        exists (c :: body), brk. repeat split; [|exact Hbrk].
        now constructor.
Qed.

(** ** [strip_text] *)

Lemma joined_no_break (lines : list string) (output : string) :
  Forall (fun line => Forall (fun c => is_linebreak c = false) (chars line))
    lines ->
  Forall (fun c => is_linebreak c = false) (chars output) ->
  Forall (fun c => is_linebreak c = false)
    (chars (fold_left (fun output line => output ++ Py.strip line ++ " ")
              lines output)).
Proof.
  intros Hlines. revert output.
  induction Hlines as [|line lines Hline _ IH]; intros output Hout;
    [exact Hout|].
  cbn [fold_left]. apply IH.
  rewrite !chars_append. apply Forall_app. split; [exact Hout|].
  apply Forall_app. split; [|repeat constructor].
  apply Forall_forall. intros c Hc. apply strip_in in Hc.
  rewrite Forall_forall in Hline. now apply Hline.
Qed.

Lemma strip_text_clean (text : string) :
  Forall (fun c => is_linebreak c = false) (chars (strip_text text))
  /\ trimmed (chars (strip_text text)).
Proof.
  unfold strip_text, splitlines.
  destruct (Nat.ltb_spec 1
              (List.length (map str (splitlines_chars [] (chars text)))))
    as [Hmany|Hone]; (split; [|apply strip_trimmed]).
  - apply Forall_forall. intros c Hc. apply strip_in in Hc. revert c Hc.
    apply Forall_forall. apply joined_no_break; [|constructor].
    apply Forall_map.
    eapply Forall_impl; [|exact (splitlines_no_break [] (chars text) (Forall_nil _))].
    cbn beta. intros line Hline. now rewrite chars_str.
  - rewrite length_map in Hone.
    destruct (one_line_split _ _ Hone) as (body & brk & Hl & Hbody & Hbrk).
    apply Forall_forall. intros c Hc.
    unfold Py.strip in Hc. rewrite chars_str in Hc.
    apply strip_in_rstrip in Hc. rewrite Hl, rstrip_spaces in Hc by exact Hbrk.
    apply rstrip_in in Hc. rewrite Forall_forall in Hbody. now apply Hbody.
Qed.

(** ** Normalising what is normalised *)

Section SortSorted.
Context {A : Type} (key : A -> Z) (lt : A -> A -> bool).
Hypothesis lt_key : forall a b, lt a b = (key a <? key b).

Lemma sort_sorted (l : list A) : ascending key l -> sort lt l = l.
Proof.
  induction l as [|x l IH]; [reflexivity|]. intros (Hx & Hl).
  rewrite sort_cons, (IH Hl). apply (insert_front key lt lt_key).
  destruct l as [|y l]; [exact I|]. now inversion Hx.
Qed.
End SortSorted.

Lemma tiles_chained (lo hi : Z) (l : list Field.t) :
  tiles lo hi l -> chained l.
Proof.
  revert lo. induction l as [|a l IH]; intros lo H; [exact I|].
  destruct H as (Ho & Hw & H). cbn [chained].
  split; [exact Hw|]. split; [|exact (IH _ H)].
  destruct l as [|b s]; [exact I|]. destruct H as (Hb & _). lia.
Qed.

Lemma chained_ascending (l : list Field.t) :
  chained l -> ascending Field.offset l.
Proof.
  induction l as [|a l IH]; intros H; [exact I|].
  pose proof (chained_after _ _ H) as Hafter.
  destruct H as (Hw & _ & Hc). split; [|exact (IH Hc)].
  eapply Forall_impl; [|exact Hafter]. cbn beta. unfold field_end.
  intros b Hb. lia.
Qed.

Lemma tiles_interleave_id (lo hi : Z) (l : list Field.t) :
  tiles lo hi l -> interleave l = l.
Proof.
  revert lo. induction l as [|a l IH]; intros lo H; [reflexivity|].
  destruct l as [|b s]; [reflexivity|].
  destruct H as (Ho & Hw & H). rewrite interleave_cons, (IH _ H).
  destruct H as (Hb & _). unfold gap. rewrite Hb, Z.sub_diag. reflexivity.
Qed.

Lemma tiles_last (lo hi : Z) (l : list Field.t) (z : Field.t) :
  tiles lo hi l -> last_opt l = Some z -> field_end z = hi.
Proof.
  revert lo. induction l as [|a l IH]; intros lo H Hz; [discriminate|].
  destruct H as (Ho & Hw & H). destruct l as [|b s].
  - cbn in Hz. injection Hz as <-. exact H.
  - rewrite last_opt_cons in Hz. exact (IH _ H Hz).
Qed.

Lemma normalize_fields_fixed (l : list Field.t) :
  tiles 0 32 l -> normalize_fields l = l.
Proof.
  intros H.
  assert (Hne : l <> []) by (intros ->; cbn in H; lia).
  pose proof (tiles_chained _ _ _ H) as Hc.
  assert (Hsort : sort Field.lt l = l).
  { apply (sort_sorted Field.offset Field.lt Field_lt_key).
    now apply chained_ascending. }
  assert (Hfirst : with_first_reserved l = l).
  { destruct l as [|a l']; [reflexivity|]. destruct H as (Ho & _).
    unfold with_first_reserved. now rewrite Ho. }
  rewrite normalize_fields_shape; rewrite ?Hsort, ?Hfirst; auto.
  rewrite (tiles_interleave_id _ _ _ H). unfold trailing.
  destruct (last_opt l) as [z|] eqn:Ez; [|apply app_nil_r].
  rewrite (tiles_last _ _ _ _ H Ez). cbn. apply app_nil_r.
Qed.

(** ** Registers as spans *)

Lemma span_lt (a b : Register.t) :
  Register.lt a b = Field.lt (span a) (span b).
Proof. reflexivity. Qed.

Lemma map_span_insert (x : Register.t) (l : list Register.t) :
  map span (insert Register.lt x l) = insert Field.lt (span x) (map span l).
Proof.
  induction l as [|y l IH]; [reflexivity|]. cbn [insert map].
  rewrite <- span_lt. destruct (Register.lt y x); cbn [map]; now rewrite ?IH.
Qed.

Lemma map_span_sort (l : list Register.t) :
  map span (sort Register.lt l) = sort Field.lt (map span l).
Proof.
  induction l as [|x l IH]; [reflexivity|].
  cbn [map]. rewrite !sort_cons, map_span_insert, IH. reflexivity.
Qed.

Lemma map_span_gap_step (l : list Register.t) (i : nat) :
  map span (register_gap_step l i) = field_gap_step (map span l) i.
Proof.
  unfold register_gap_step, field_gap_step. rewrite !nth_error_map.
  destruct (nth_error l i) as [ri|]; [|reflexivity].
  destruct (nth_error l (i + 1)) as [ri1|]; [|reflexivity].
  cbn [option_map span Field.offset Field.width].
  destruct (0 <? _); [|reflexivity].
  rewrite map_app. reflexivity.
Qed.

Lemma map_span_gap_steps (idx : list nat) (l : list Register.t) :
  map span (fold_left register_gap_step idx l)
  = fold_left field_gap_step idx (map span l).
Proof.
  revert l. induction idx as [|i idx IH]; intros l; [reflexivity|].
  cbn [fold_left]. now rewrite IH, map_span_gap_step.
Qed.

Lemma map_span_fill (l : list Register.t) :
  map span (fill_register_gaps l) = fill_field_gaps (map span l).
Proof.
  unfold fill_register_gaps, fill_field_gaps.
  now rewrite map_span_gap_steps, length_map.
Qed.

(** The spans after lines 332-336: the inserted register has size 0
    and sits one below the first offset. *)
Lemma normalize_registers_spans (registers : list Register.t) :
  map span (normalize_registers registers)
  = sort Field.lt
      (fill_field_gaps
         match sort Field.lt (map span registers) with
         | f0 :: _ =>
             if negb (Field.offset f0 =? 0)
             then reserved_field (Field.offset f0 - 1) 0
                    :: sort Field.lt (map span registers)
             else sort Field.lt (map span registers)
         | [] => []
         end).
Proof.
  unfold normalize_registers.
  rewrite map_span_sort, map_span_fill. f_equal. f_equal.
  rewrite <- map_span_sort.
  destruct (sort Register.lt registers) as [|r0 s]; [reflexivity|].
  cbn [map span Field.offset].
  destruct (negb (Register.offset r0 =? 0)); reflexivity.
Qed.

Lemma ascending_head_le {A : Type} (key : A -> Z) (x : A) (l : list A) (y : A) :
  ascending key (x :: l) -> In y (x :: l) -> key x <= key y.
Proof.
  intros (Hx & _) [<-|Hy]; [lia|].
  rewrite Forall_forall in Hx. now apply Hx.
Qed.

Lemma normalize_registers_tiles (registers : list Register.t) :
  Forall (fun r => 0 <= Register.offset r /\ 1 <= Register.size r) registers ->
  Exists (fun r => Register.offset r = 0) registers ->
  pairwise_disjoint (map span registers) ->
  exists hi, tiles 0 hi (map span (normalize_registers registers)).
Proof.
  intros Hpos Hzero Hdis.
  rewrite normalize_registers_spans.
  set (fs := map span registers).
  assert (Hfs : Forall (fun f => 0 <= Field.offset f /\ 1 <= Field.width f) fs).
  { subst fs. apply Forall_map. exact Hpos. }
  pose proof (sort_fields_chained fs Hfs Hdis) as Hc.
  assert (Hs : Permutation (sort Field.lt fs) fs) by apply sort_perm.
  pose proof (sort_ascending Field.offset Field.lt Field_lt_key fs) as Hasc.
  destruct (sort Field.lt fs) as [|f0 s] eqn:Es.
  { apply Permutation_nil in Hs. subst fs.
    apply Exists_exists in Hzero. destruct Hzero as (r & Hr & _).
    destruct registers; [contradiction | discriminate]. }
  assert (H0 : Field.offset f0 = 0).
  { apply Exists_exists in Hzero. destruct Hzero as (r & Hr & Hr0).
    assert (Hin : In (span r) (f0 :: s)).
    { apply (Permutation_in _ (Permutation_sym Hs)). subst fs.
      now apply in_map. }
    pose proof (ascending_head_le _ _ _ _ Hasc Hin) as Hle.
    cbn [span Field.offset] in Hle.
    assert (Hf0 : In f0 fs) by (apply (Permutation_in _ Hs); now left).
    rewrite Forall_forall in Hfs. specialize (Hfs _ Hf0). lia. }
  rewrite H0. cbn [Z.eqb negb].
  rewrite fill_field_gaps_gaps, (sort_interleave _ Hc).
  destruct (last_opt (f0 :: s)) as [z|] eqn:Ez.
  - exists (field_end z). rewrite <- H0. now apply tiles_interleave.
  - unfold last_opt in Ez. cbn in Ez. destruct (rev s); discriminate.
Qed.

(** ** The mask loops *)

Lemma or_field_bits_any_width (mask : Z) (field : Field.t) :
  shiftable field ->
  or_field_bits mask field
  = Ok (Z.lor mask
          (Z.shiftl (Z.ones (Z.max 0 (Field.width field)))
             (Field.offset field))).
Proof.
  intros Hs. destruct (Z.le_gt_cases (Field.width field) 0) as [Hw|Hw].
  - rewrite Z.max_l by lia. unfold or_field_bits, range.
    replace (Z.to_nat (Field.width field)) with 0%nat by lia. cbn.
    now rewrite Z.shiftl_0_l, Z.lor_0_r.
  - rewrite Z.max_r by lia. apply or_field_bits_value; [lia|].
    destruct Hs; lia.
Qed.

Lemma field_bits_testbit (field : Field.t) (b : Z) :
  shiftable field -> 0 <= b ->
  Z.testbit
    (Z.shiftl (Z.ones (Z.max 0 (Field.width field))) (Field.offset field)) b
  = holds b field.
Proof.
  intros Hs Hb. unfold holds, field_end.
  destruct (Z.le_gt_cases (Field.width field) 0) as [Hw|Hw].
  - rewrite Z.max_l by lia. cbn [Z.ones]. rewrite Z.shiftl_0_l, Z.bits_0.
    destruct (Z.leb_spec (Field.offset field) b),
      (Z.ltb_spec b (Field.offset field + Field.width field));
      try reflexivity; lia.
  - assert (Hk : 0 <= Field.offset field) by (destruct Hs; lia).
    rewrite Z.shiftl_spec by lia.
    destruct (Z.leb_spec (Field.offset field) b) as [Hle|Hlt]; cbn [andb].
    + rewrite Z.testbit_ones_nonneg by lia.
      destruct (Z.ltb_spec (b - Field.offset field)
                  (Z.max 0 (Field.width field))),
        (Z.ltb_spec b (Field.offset field + Field.width field));
        try reflexivity; lia.
    + apply Z.testbit_neg_r. lia.
Qed.

Lemma or_fields_bits_value (mask : Z) (fields : list Field.t) :
  Forall shiftable fields ->
  exists m,
    or_fields_bits mask fields = Ok m
    /\ forall b, 0 <= b ->
         Z.testbit m b = (Z.testbit mask b || existsb (holds b) fields)%bool.
Proof.
  intros H. revert mask. unfold or_fields_bits.
  induction H as [|f fields Hf _ IH]; intros mask.
  - exists mask. split; [reflexivity|]. intros b _. now rewrite orb_false_r.
  - cbn [fold_left rbind]. rewrite (or_field_bits_any_width mask f Hf).
    destruct (IH (Z.lor mask
                    (Z.shiftl (Z.ones (Z.max 0 (Field.width f)))
                       (Field.offset f)))) as (m & Hm & Hbits).
    exists m. split; [exact Hm|]. intros b Hb.
    rewrite (Hbits b Hb), Z.lor_spec, (field_bits_testbit f b Hf Hb).
    cbn [existsb]. now rewrite orb_assoc.
Qed.

(** ** Rendering without exception *)

Lemma field_macros_ok (p : Peripheral.t) (r : Register.t)
  (filtered : list Field.t) (f : Field.t) :
  shiftable f -> exists text, field_macros p r filtered f = Ok text.
Proof.
  intros Hk. unfold field_macros.
  destruct (Field.width f =? 1); [eauto|].
  rewrite (or_field_bits_any_width 0 f Hk). cbn [rbind]. eauto.
Qed.

Lemma macros_fold_ok (p : Peripheral.t) (r : Register.t)
  (filtered fields : list Field.t) (union : string) :
  Forall shiftable fields ->
  exists text,
    fold_left
      (fun union field =>
         let* union := union in
         let* macros := field_macros p r filtered field in
         Ok (union ++ macros))
      fields (Ok union) = Ok text.
Proof.
  intros H. revert union. induction H as [|f fields Hf _ IH]; intros union.
  - cbn. eauto.
  - cbn [fold_left rbind].
    destruct (field_macros_ok p r filtered f Hf) as (text & ->).
    cbn [rbind]. apply IH.
Qed.

Lemma register_union_ok (p : Peripheral.t) (r : Register.t) :
  Forall shiftable (named_fields r) ->
  exists union, register_union p r = Ok union.
Proof.
  intros H. unfold register_union. fold (named_fields r).
  destruct (or_fields_bits_value 0 (named_fields r) H) as (m & -> & _).
  cbn [rbind]. now apply macros_fold_ok.
Qed.

Lemma union_steps_ok (p : Peripheral.t) (v : Z) (registers : list Register.t)
  (output : list string) (out : stdout) :
  Forall (fun r => Forall shiftable (named_fields r)) registers ->
  exists unions out',
    fold_left (union_step p v) registers (Ok (output, out))
    = Ok ((output ++ unions)%list, out')
    /\ List.length unions = List.length (with_fields registers).
Proof.
  intros H. revert output out.
  induction H as [|r registers Hr _ IH]; intros output out.
  - exists [], out. now rewrite app_nil_r.
  - cbn [fold_left]. unfold union_step at 2. cbn [rbind fst snd].
    unfold with_fields. cbn [filter]. fold (with_fields registers).
    destruct (Z.of_nat (List.length (Register.fields r)) <? 1); cbn [negb].
    + apply IH.
    + destruct (register_union_ok p r Hr) as (union & ->). cbn [rbind].
      destruct (IH (output ++ [union])%list
                  (if 2 <? v then print union out else out))
        as (unions & out' & -> & Hlen).
      exists (union :: unions), out'. split.
      * now rewrite <- app_assoc.
      * cbn. now rewrite Hlen.
Qed.

(** ** The exceptions of the renderer *)

Lemma only_ValueError_Ok {A : Type} (a : A) : only_ValueError (Ok a).
Proof. intros e. discriminate. Qed.

Lemma only_ValueError_bind {A B : Type} (m : result A) (k : A -> result B) :
  only_ValueError m -> (forall a, only_ValueError (k a)) ->
  only_ValueError (rbind m k).
Proof.
  intros Hm Hk. destruct m as [a|e]; cbn [rbind]; [apply Hk|].
  intros e' [= <-]. now apply Hm.
Qed.

Lemma only_ValueError_fold {A X : Type} (f : result A -> X -> result A)
  (l : list X) (init : result A) :
  (forall acc x, only_ValueError acc -> only_ValueError (f acc x)) ->
  only_ValueError init -> only_ValueError (fold_left f l init).
Proof.
  intros Hf. revert init. induction l as [|x l IH]; intros init Hinit;
    [exact Hinit|].
  cbn [fold_left]. apply IH. now apply Hf.
Qed.

Lemma shl1_only_ValueError (n : Z) : only_ValueError (shl1 n).
Proof.
  unfold shl1. destruct (n <? 0); [now intros e [= <-] | apply only_ValueError_Ok].
Qed.

Lemma or_field_bits_only_ValueError (mask : Z) (f : Field.t) :
  only_ValueError (or_field_bits mask f).
Proof.
  unfold or_field_bits. apply only_ValueError_fold; [|apply only_ValueError_Ok].
  intros acc i Hacc. apply only_ValueError_bind; [exact Hacc|]. intros m.
  apply only_ValueError_bind; [apply shl1_only_ValueError|]. intros b.
  apply only_ValueError_Ok.
Qed.

Lemma register_union_only_ValueError (p : Peripheral.t) (r : Register.t) :
  only_ValueError (register_union p r).
Proof.
  unfold register_union. apply only_ValueError_bind.
  - unfold or_fields_bits.
    apply only_ValueError_fold; [|apply only_ValueError_Ok].
    intros acc f Hacc. apply only_ValueError_bind; [exact Hacc|]. intros m.
    apply or_field_bits_only_ValueError.
  - intros mask. apply only_ValueError_fold; [|apply only_ValueError_Ok].
    intros acc f Hacc. apply only_ValueError_bind; [exact Hacc|]. intros u.
    apply only_ValueError_bind; [|intros; apply only_ValueError_Ok].
    unfold field_macros. destruct (Field.width f =? 1);
      [apply only_ValueError_Ok|].
    apply only_ValueError_bind; [apply or_field_bits_only_ValueError|].
    intros; apply only_ValueError_Ok.
Qed.

Lemma print_registers_only_ValueError (p : Peripheral.t) (v : Z)
  (out : stdout) :
  only_ValueError (print_registers p v out).
Proof.
  unfold print_registers.
  apply only_ValueError_fold; [|apply only_ValueError_Ok].
  intros acc r Hacc. unfold union_step.
  apply only_ValueError_bind; [exact Hacc|]. intros state.
  destruct (_ <? 1); [apply only_ValueError_Ok|].
  apply only_ValueError_bind; [apply register_union_only_ValueError|].
  intros; apply only_ValueError_Ok.
Qed.

Lemma shiftable_dec (f : Field.t) : {shiftable f} + {~ shiftable f}.
Proof.
  unfold shiftable.
  destruct (Z_le_dec (Field.width f) 0); [now left; left|].
  destruct (Z_le_dec 0 (Field.offset f)); [now left; right|].
  right. intros [H|H]; contradiction.
Qed.

Lemma print_registers_raises (p : Peripheral.t) (v : Z) (out : stdout)
  (e : exn) :
  print_registers p v out = Raise e ->
  e = ValueError
  /\ Exists
       (fun r =>
          Exists (fun f => 1 <= Field.width f /\ Field.offset f < 0)
            (named_fields r))
       (Peripheral.registers p).
Proof.
  intros H. split; [exact (print_registers_only_ValueError p v out e H)|].
  destruct (Forall_Exists_dec
              (fun r => Forall shiftable (named_fields r))
              (fun r => Forall_dec shiftable shiftable_dec (named_fields r))
              (Peripheral.registers p)) as [Hall|Hex].
  - destruct (union_steps_ok p v (Peripheral.registers p) [] out Hall)
      as (unions & out' & Hok & _).
    unfold print_registers in H. rewrite Hok in H. discriminate.
  - eapply Exists_impl; [|exact Hex]. cbn beta. intros r Hr.
    apply neg_Forall_Exists_neg in Hr; [|apply shiftable_dec].
    eapply Exists_impl; [|exact Hr]. cbn beta. unfold shiftable.
    intros f Hf. lia.
Qed.

Lemma fold_stays_raised {A X : Type} (f : result A -> X -> result A)
  (l : list X) (e : exn) :
  (forall x e', f (Raise e') x = Raise e') ->
  fold_left f l (Raise e) = Raise e.
Proof.
  intros Hf. induction l as [|x l IH]; [reflexivity|].
  cbn [fold_left]. now rewrite Hf.
Qed.

Lemma fold_raises {A X : Type} (f : result A -> X -> result A)
  (l : list X) (init : result A) (bad : X -> Prop) :
  (forall x e', f (Raise e') x = Raise e') ->
  (forall acc x, bad x -> exists e, f acc x = Raise e) ->
  Exists bad l ->
  exists e, fold_left f l init = Raise e.
Proof.
  intros Hstay Hbad Hex. revert init.
  induction Hex as [x l Hx|x l _ IH]; intros init; cbn [fold_left].
  - destruct (Hbad init x Hx) as (e & ->).
    exists e. now apply fold_stays_raised.
  - apply IH.
Qed.

Lemma or_field_bits_raises (mask : Z) (f : Field.t) :
  1 <= Field.width f -> Field.offset f < 0 ->
  exists e, or_field_bits mask f = Raise e.
Proof.
  intros Hw Hk. unfold or_field_bits, range.
  destruct (Z.to_nat (Field.width f)) as [|n] eqn:E; [lia|].
  cbn [seq map fold_left rbind]. unfold shl1 at 2.
  destruct (Z.ltb_spec (Z.of_nat 0 + Field.offset f) 0); [|lia].
  cbn [rbind]. eexists. now apply fold_stays_raised.
Qed.

Lemma register_union_raises (p : Peripheral.t) (r : Register.t) :
  Exists (fun f => 1 <= Field.width f /\ Field.offset f < 0) (named_fields r) ->
  exists e, register_union p r = Raise e.
Proof.
  intros Hex. unfold register_union. fold (named_fields r).
  destruct (fold_raises
              (fun mask field => let* mask := mask in or_field_bits mask field)
              (named_fields r) (Ok 0)
              (fun f => 1 <= Field.width f /\ Field.offset f < 0))
    as (e & He); [reflexivity | | exact Hex |].
  - intros [m|e'] f (Hw & Hk); cbn [rbind]; [|eauto].
    now apply or_field_bits_raises.
  - unfold or_fields_bits. rewrite He. cbn [rbind]. eauto.
Qed.

Lemma named_fields_some (r : Register.t) (f : Field.t) :
  In f (named_fields r) ->
  (Z.of_nat (List.length (Register.fields r)) <? 1) = false.
Proof.
  unfold named_fields. intros H. apply filter_In in H. destruct H as [H _].
  destruct (Register.fields r); [contradiction|].
  apply Z.ltb_ge. cbn [List.length]. lia.
Qed.

Lemma print_registers_bad_field (p : Peripheral.t) (v : Z) (out : stdout) :
  Exists
    (fun r =>
       Exists (fun f => 1 <= Field.width f /\ Field.offset f < 0)
         (named_fields r))
    (Peripheral.registers p) ->
  print_registers p v out = Raise ValueError.
Proof.
  intros Hex.
  destruct (fold_raises (union_step p v) (Peripheral.registers p)
              (Ok ([], out))
              (fun r =>
                 Exists (fun f => 1 <= Field.width f /\ Field.offset f < 0)
                   (named_fields r)))
    as (e & He); [reflexivity | | exact Hex |].
  - intros [state|e'] r Hr; unfold union_step; cbn [rbind]; [|eauto].
    assert (Hsome : (Z.of_nat (List.length (Register.fields r)) <? 1) = false).
    { apply Exists_exists in Hr. destruct Hr as (f & Hf & _).
      exact (named_fields_some r f Hf). }
    rewrite Hsome. destruct (register_union_raises p r Hr) as (e & ->).
    cbn [rbind]. eauto.
  - unfold print_registers. rewrite He. f_equal.
    apply (print_registers_only_ValueError p v out). exact He.
Qed.

(** ** Counting *)

Lemma count_fold {A : Type} (l : list A) (count : Z) :
  fold_left (fun count _ => count + 1) l count = count + Z.of_nat (List.length l).
Proof.
  revert count. induction l as [|x l IH]; intros count; cbn [fold_left List.length].
  - lia.
  - rewrite IH. lia.
Qed.

Lemma register_count_length (p : Peripheral.t) :
  Peripheral.register_count p = Z.of_nat (List.length (Peripheral.registers p)).
Proof. unfold Peripheral.register_count. now rewrite count_fold. Qed.

Lemma field_count_length (p : Peripheral.t) :
  Peripheral.field_count p
  = Z.of_nat (List.length (flat_map Register.fields (Peripheral.registers p))).
Proof.
  unfold Peripheral.field_count.
  assert (H : forall l count,
            fold_left
              (fun count register =>
                 fold_left (fun count _ => count + 1)
                   (Register.fields register) count) l count
            = count + Z.of_nat (List.length (flat_map Register.fields l))).
  { induction l as [|r l IH]; intros count; cbn [fold_left flat_map].
    - cbn. lia.
    - rewrite IH, count_fold, length_app. lia. }
  now rewrite H.
Qed.

(** ** Rendering equal peripherals *)

Lemma render_by_structure (p q : Peripheral.t) (v : Z) (o : stdout) :
  Peripheral.name p = Peripheral.name q ->
  Peripheral.description p = Peripheral.description q ->
  Peripheral.registers p = Peripheral.registers q ->
  print_registers p v o = print_registers q v o
  /\ print_peripheral p v o = print_peripheral q v o.
Proof.
  destruct p as [n1 r1 d1 g1 p1], q as [n2 r2 d2 g2 p2]. cbn.
  intros -> -> ->. split; reflexivity.
Qed.

Lemma render_equal (p q : Peripheral.t) (v1 v2 : Z) (o1 o2 : stdout) :
  Peripheral.eq p q = true ->
  returned (print_registers p v1 o1) = returned (print_registers q v2 o2)
  /\ fst (print_peripheral p v1 o1) = fst (print_peripheral q v2 o2).
Proof.
  intros H. apply Peripheral_eq_iff in H. destruct H as (Hn & Hd & Hr).
  destruct (render_by_structure p q v1 o1 Hn Hd Hr) as [-> ->].
  split; [|reflexivity].
  exact (union_steps_returned q v1 v2 (Peripheral.registers q) [] o1 o2).
Qed.

(** ** The loop of [main] *)

Lemma main_step_cases (args : Args.t) (output : bool) (st st' : run)
  (x : Xml.Element) :
  main_step args output st x = Ok st' ->
  (is_derived x = true
   /\ st' = Run (derived st + 1) (peripherals st) (duplicates st)
              (register_count st) (field_count st) (files st) (out st))
  \/ (is_derived x = false /\ load_peripheral x = Ok None /\ st' = st)
  \/ (is_derived x = false
      /\ exists p path,
           load_peripheral x = Ok (Some p)
           /\ peripherals st' = (peripherals st ++ [Peripheral.set_path p path])%list
           /\ derived st' = derived st
           /\ (duplicates st' = duplicates st
               \/ exists d,
                    In d (peripherals st)
                    /\ Peripheral.name d = Peripheral.name p
                    /\ Peripheral.eq p d = false
                    /\ duplicates st'
                       = (duplicates st ++ [(Peripheral.path d, path)])%list)
           /\ if output
              then
                map fst (files st') = (map fst (files st) ++ [path])%list
                /\ register_count st'
                   = register_count st + Peripheral.register_count p
                /\ field_count st' = field_count st + Peripheral.field_count p
              else
                files st' = files st
                /\ register_count st' = register_count st
                /\ field_count st' = field_count st
                /\ out st' = out st).
Proof.
  unfold main_step. destruct (is_derived x) eqn:Hder.
  - intros [= <-]. now left.
  - destruct (load_peripheral x) as [[p|]|e] eqn:Hload; cbn [rbind];
      [| intros [= <-]; right; now left | discriminate].
    intros H. right. right. split; [reflexivity|].
    set (path0 := path_join (Args.output args)
                    (Args.prefix args ++ "_" ++ lower (Peripheral.name p) ++ ".h"))
      in *.
    set (routed :=
           match
             List.find
               (fun x0 => String.eqb (Peripheral.name x0) (Peripheral.name p))
               (peripherals st)
           with
           | Some duplicate =>
               if negb (Peripheral.eq p duplicate)
               then
                 (path_join (Args.output args)
                    ("duplicate/" ++ Args.prefix args ++ "_"
                     ++ lower (Peripheral.realname p) ++ ".h"),
                  (duplicates st
                   ++ [(Peripheral.path duplicate,
                        path_join (Args.output args)
                          ("duplicate/" ++ Args.prefix args ++ "_"
                           ++ lower (Peripheral.realname p) ++ ".h"))])%list)
               else (path0, duplicates st)
           | None => (path0, duplicates st)
           end) in *.
    assert (Hrouted :
      snd routed = duplicates st
      \/ exists d,
           In d (peripherals st)
           /\ Peripheral.name d = Peripheral.name p
           /\ Peripheral.eq p d = false
           /\ snd routed
              = (duplicates st ++ [(Peripheral.path d, fst routed)])%list).
    { subst routed.
      destruct (List.find _ (peripherals st)) as [d|] eqn:Hfind;
        [|now left].
      destruct (Peripheral.eq p d) eqn:Heq; cbn [negb]; [now left|].
      right. exists d. apply find_some in Hfind. destruct Hfind as [Hin Hname].
      apply String.eqb_eq in Hname. auto. }
    exists p, (fst routed). split; [reflexivity|].
    destruct output.
    + destruct (print_registers (Peripheral.set_path p (fst routed))
                  (Args.verbose args) (out st)) as [rendered|e];
        cbn [rbind] in H; [|discriminate].
      injection H as <-. cbn [peripherals derived duplicates files
        register_count field_count out].
      rewrite map_app. cbn [map fst]. repeat split; auto.
    + injection H as <-. cbn [peripherals derived duplicates files
        register_count field_count out]. repeat split; auto.
Qed.

Lemma total_app (count : Peripheral.t -> Z) (l1 l2 : list Peripheral.t) :
  total count (l1 ++ l2) = total count l1 + total count l2.
Proof.
  unfold total. induction l1 as [|p l1 IH]; cbn; [lia|].
  cbn in IH. rewrite IH. lia.
Qed.

Lemma set_path_counts (p : Peripheral.t) (path : string) :
  Peripheral.register_count (Peripheral.set_path p path)
  = Peripheral.register_count p
  /\ Peripheral.field_count (Peripheral.set_path p path)
     = Peripheral.field_count p.
Proof. split; reflexivity. Qed.

Lemma main_loop_accounts (args : Args.t) (output : bool)
  (l : list Xml.Element) (st st' : run) :
  main_loop args output st l = Ok st' ->
  exists new,
    peripherals st' = (peripherals st ++ new)%list
    /\ Forall2 routed_from new (loads l)
    /\ derived st' = derived st + Z.of_nat (List.length (filter is_derived l))
    /\ (List.length new
        <= List.length (filter (fun x => negb (is_derived x)) l))%nat
    /\ if output
       then
         map fst (files st')
         = (map fst (files st) ++ map Peripheral.path new)%list
         /\ register_count st'
            = register_count st + total Peripheral.register_count new
         /\ field_count st' = field_count st + total Peripheral.field_count new
       else
         files st' = files st
         /\ register_count st' = register_count st
         /\ field_count st' = field_count st
         /\ out st' = out st.
Proof.
  revert st. induction l as [|x l IH]; intros st.
  - cbn. intros [= <-]. exists []. rewrite !app_nil_r. cbn.
    split; [reflexivity|]. split; [constructor|]. split; [lia|].
    split; [lia|]. destruct output; repeat split; lia.
  - cbn [main_loop]. destruct (main_step args output st x) as [st1|e] eqn:Hstep;
      cbn [rbind]; [|discriminate].
    intros Hloop. destruct (IH st1 Hloop) as (new & Hp & Hord & Hd & Hlen & Hout).
    apply main_step_cases in Hstep. cbn [filter loads flat_map].
    fold (loads l).
    destruct Hstep as [(Hder & ->)|[(Hder & Hload & ->)|(Hder & p & path & Hload & Hp1 & Hd1 & _ & Hout1)]];
      rewrite Hder; cbn [negb]; rewrite ?Hload; cbn [app].
    + exists new. cbn [peripherals derived files register_count field_count out]
        in *. split; [exact Hp|]. split; [exact Hord|].
      split; [cbn [List.length]; lia|].
      split; [exact Hlen | exact Hout].
    + exists new. split; [exact Hp|]. split; [exact Hord|]. split; [exact Hd|].
      split; [cbn; lia | exact Hout].
    + exists (Peripheral.set_path p path :: new).
      split; [rewrite Hp, Hp1, <- app_assoc; reflexivity|].
      split; [constructor; [reflexivity | exact Hord]|].
      split; [lia|]. split; [cbn; lia|].
      destruct output.
      * destruct Hout as (Hf & Hr & Hc), Hout1 as (Hf1 & Hr1 & Hc1).
        cbn [map total fold_right Peripheral.path Peripheral.set_path].
        fold (total Peripheral.register_count new).
        fold (total Peripheral.field_count new).
        destruct (set_path_counts p path) as [-> ->].
        rewrite Hf, Hf1, Hr, Hr1, Hc, Hc1, <- app_assoc.
        split; [reflexivity|]. split; lia.
      * destruct Hout as (Hf & Hr & Hc & Ho), Hout1 as (Hf1 & Hr1 & Hc1 & Ho1).
        repeat split; congruence.
Qed.

Lemma main_step_duplicates (args : Args.t) (output : bool) (st st' : run)
  (x : Xml.Element) :
  duplicates_sound st -> main_step args output st x = Ok st' ->
  duplicates_sound st'.
Proof.
  intros Hsound Hstep. apply main_step_cases in Hstep.
  destruct Hstep as [(_ & ->)|[(_ & _ & ->)|(_ & p & path & _ & Hp & _ & Hdup & _)]];
    [exact Hsound | exact Hsound |].
  unfold duplicates_sound in *.
  assert (Hold : Forall
            (fun pair =>
               exists d q,
                 In d (peripherals st') /\ In q (peripherals st')
                 /\ Peripheral.path d = fst pair /\ Peripheral.path q = snd pair
                 /\ Peripheral.name d = Peripheral.name q
                 /\ Peripheral.eq q d = false) (duplicates st)).
  { eapply Forall_impl; [|exact Hsound]. cbn beta.
    intros pair (d & q & Hd & Hq & H). exists d, q. rewrite Hp.
    split; [apply in_or_app; now left|].
    split; [apply in_or_app; now left | exact H]. }
  destruct Hdup as [->|(d & Hd & Hname & Heq & ->)]; [exact Hold|].
  apply Forall_app. split; [exact Hold|].
  constructor; [|constructor].
  exists d, (Peripheral.set_path p path). rewrite Hp. cbn [fst snd].
  split; [apply in_or_app; now left|].
  split; [apply in_or_app; right; now left|].
  split; [reflexivity|]. split; [reflexivity|]. split; [exact Hname | exact Heq].
Qed.

Lemma main_loop_duplicates (args : Args.t) (output : bool)
  (l : list Xml.Element) (st st' : run) :
  duplicates_sound st -> main_loop args output st l = Ok st' ->
  duplicates_sound st'.
Proof.
  revert st. induction l as [|x l IH]; intros st Hsound.
  - cbn. now intros [= <-].
  - cbn [main_loop]. destruct (main_step args output st x) as [st1|e] eqn:Hstep;
      cbn [rbind]; [|discriminate].
    apply IH. exact (main_step_duplicates _ _ _ _ _ Hsound Hstep).
Qed.

(** ** Masks of loaded registers *)

Lemma filter_perm {A : Type} (f : A -> bool) (l l' : list A) :
  Permutation l l' -> Permutation (filter f l) (filter f l').
Proof.
  induction 1 as [|x l l' _ IH|x y l|l l' l'' _ IH1 _ IH2]; cbn [filter].
  - constructor.
  - destruct (f x); [now constructor | exact IH].
  - destruct (f x), (f y); try reflexivity. apply perm_swap.
  - now transitivity (filter f l').
Qed.

Lemma existsb_perm {A : Type} (f : A -> bool) (l l' : list A) :
  Permutation l l' -> existsb f l = existsb f l'.
Proof.
  intros Hp. apply eq_true_iff_eq. rewrite !existsb_exists.
  split; intros (x & Hx & Hf); exists x; split; auto.
  - eapply Permutation_in; eassumption.
  - eapply Permutation_in; [symmetry|]; eassumption.
Qed.

Lemma reserved_unnamed (l : list Field.t) :
  Forall is_reserved l -> filter is_named l = [].
Proof.
  induction 1 as [|f l (Hname & _) _ IH]; [reflexivity|].
  cbn [filter]. unfold is_named at 1. rewrite Hname. exact IH.
Qed.

Lemma named_after_normalize (fields : list Field.t) :
  Permutation (filter is_named (normalize_fields fields))
    (filter is_named fields).
Proof.
  destruct (normalize_fields_adds_reserved fields) as (synth & Hp & Hres).
  etransitivity; [apply filter_perm; exact Hp|].
  rewrite filter_app, (reserved_unnamed synth Hres), app_nil_r. reflexivity.
Qed.

Lemma mask_of_parsed (r : Register.t) (fields : list Field.t) :
  Register.fields r = normalize_fields fields ->
  Forall shiftable (filter is_named fields) ->
  exists mask,
    or_fields_bits 0 (named_fields r) = Ok mask
    /\ forall b, 0 <= b ->
         Z.testbit mask b = existsb (holds b) (filter is_named fields).
Proof.
  intros Hr Hs.
  assert (Hp : Permutation (named_fields r) (filter is_named fields)).
  { unfold named_fields. rewrite Hr. apply named_after_normalize. }
  assert (Hs' : Forall shiftable (named_fields r)).
  { eapply Permutation_Forall; [symmetry; exact Hp | exact Hs]. }
  destruct (or_fields_bits_value 0 (named_fields r) Hs') as (m & Hm & Hbits).
  exists m. split; [exact Hm|]. intros b Hb.
  rewrite (Hbits b Hb), Z.bits_0. cbn [orb]. now apply existsb_perm.
Qed.

(** ** Fields given by offset and width *)

Lemma load_field_pair (field o w : Xml.Element) (to tw : string)
  (a b : list ascii) (ro : bool) :
  Xml.find "bitOffset" field = Some o ->
  Xml.find "bitWidth" field = Some w ->
  Xml.text o = Some to -> Xml.text w = Some tw ->
  Py.strip to = str a -> Py.strip tw = str b ->
  a <> [] -> b <> [] ->
  forallb is_digit a = true -> forallb is_digit b = true ->
  match Xml.find "access" field with
  | None => ro = false
  | Some access_xml =>
      exists t,
        Xml.text access_xml = Some t
        /\ ro = String.eqb (Py.strip t) "read-only"
  end ->
  load_field field
  = Next (Field.new (get_xml_text "name" field)
            (get_xml_text "description" field) (decimal a) (decimal b) ro).
Proof.
  intros Ho Hw Hto Htw Sa Sb Ha Hb Da Db Hro. unfold load_field.
  rewrite Ho, Hw. unfold text_strip at 1 2. rewrite Hto, Htw, Sa, Sb.
  cbn [bind fst snd].
  destruct (Xml.find "access" field) as [x|].
  - destruct Hro as (t & Ht & ->). unfold text_strip. rewrite Ht.
    cbn [bind int_of]. rewrite (int_decimal a Ha Da), (int_decimal b Hb Db).
    reflexivity.
  - subst ro. cbn [bind int_of].
    rewrite (int_decimal a Ha Da), (int_decimal b Hb Db). reflexivity.
Qed.

(** ** Registers without a size or an offset *)

Lemma for_each_throws_at {R A B : Type} (body : A -> flow R B)
  (before after : list A) (a : A) (bs : list B) (e : exn) :
  for_each body before = Next bs -> body a = Throw e ->
  for_each body (before ++ a :: after) = Throw e.
Proof.
  revert bs. induction before as [|x before IH]; intros bs Hb Ha.
  - cbn [app for_each]. now rewrite Ha.
  - cbn [app for_each] in *. destruct (body x) as [b|r|e'];
      cbn [bind] in *; try discriminate.
    destruct (for_each body before) as [bs'|r|e'] eqn:E; cbn [bind] in *;
      try discriminate.
    now rewrite (IH bs' eq_refl Ha).
Qed.

Lemma int_raises_ValueError (s : string) (base : Z) (e : exn) :
  Py.int s base = Raise e -> e = ValueError.
Proof.
  unfold Py.int. destruct (int_signed base (chars (strip s)));
    [discriminate | now intros [= <-]].
Qed.

Lemma get_xml_text_missing (name : string) (xml : Xml.Element) :
  Xml.find name xml = None -> get_xml_text name xml = "".
Proof. unfold get_xml_text. now intros ->. Qed.

Lemma load_register_without_size (register : Xml.Element) :
  Xml.find "size" register = None
  \/ Xml.find "addressOffset" register = None ->
  load_register register = Throw ValueError.
Proof.
  intros H. unfold load_register.
  destruct H as [H|H].
  - rewrite (get_xml_text_missing _ _ H). reflexivity.
  - rewrite (get_xml_text_missing "addressOffset" _ H).
    destruct (Py.int (get_xml_text "size" register) 16) as [z|e] eqn:E;
      cbn [lift bind].
    + reflexivity.
    + now rewrite (int_raises_ValueError _ _ _ E).
Qed.

Lemma load_peripheral_without_size (peripheral registers register : Xml.Element)
  (before after : list Xml.Element) (loaded : list Register.t) :
  Xml.find "registers" peripheral = Some registers ->
  Xml.children registers = (before ++ register :: after)%list ->
  for_each load_register before = Next loaded ->
  Xml.find "size" register = None
  \/ Xml.find "addressOffset" register = None ->
  load_peripheral peripheral = Raise ValueError.
Proof.
  intros Hr Hc Hb Hs. unfold load_peripheral, load_registers.
  rewrite Hr, Hc.
  rewrite (for_each_throws_at load_register before after register loaded
             ValueError Hb (load_register_without_size register Hs)).
  reflexivity.
Qed.

(** * Further properties, stated *)

(** X1.  The text [strip_text] returns, and so the text
    [get_xml_text] returns, holds no line break and has no white space
    at either end. *)
Theorem text_is_one_trimmed_line (name text : string) (xml : Xml.Element) :
  Forall (fun c => is_linebreak c = false) (chars (strip_text text))
  /\ trimmed (chars (strip_text text))
  /\ Forall (fun c => is_linebreak c = false) (chars (get_xml_text name xml))
  /\ trimmed (chars (get_xml_text name xml)).
Proof.
  destruct (strip_text_clean text) as [H1 H2].
  split; [exact H1|]. split; [exact H2|].
  unfold get_xml_text.
  destruct (Xml.find name xml) as [text_xml|];
    [|split; [constructor | split; exact I]].
  destruct (Xml.text text_xml) as [t|];
    [|split; [constructor | split; exact I]].
  exact (strip_text_clean t).
Qed.

(** X2.  The canonical name of an ASCII name in closed form: the
    pattern takes one character, a digit, off the longest prefix of
    word characters, and only when that prefix has two characters or
    more and is followed by nothing or by a final newline; any other
    name is kept whole. *)
Theorem canonical_name_is_strip_one_digit (realname : string) :
  ascii_only realname ->
  Peripheral.canonical_name realname = strip_one_digit realname.
Proof. intros _. exact (canonical_name_closed_form realname). Qed.

Lemma canonical_name_is_strip_one_digit_witness :
  ascii_only "TIMER10" /\ Peripheral.canonical_name "TIMER10" = "TIMER1".
Proof.
  assert (H : ascii_only "TIMER10").
  { unfold ascii_only. repeat constructor. }
  split; [exact H|].
  exact (canonical_name_is_strip_one_digit "TIMER10" H).
Defined.

(** X3.  [register_count] is the number of registers and [field_count]
    the number of fields of all registers together. *)
Theorem counts_are_lengths (p : Peripheral.t) :
  Peripheral.register_count p = Z.of_nat (List.length (Peripheral.registers p))
  /\ Peripheral.field_count p
     = Z.of_nat (List.length (flat_map Register.fields (Peripheral.registers p))).
Proof. split; [apply register_count_length | apply field_count_length]. Qed.

(** X4.  When [load_registers] returns, it returns one register per
    child of the [registers] element, none of them reserved; the list
    is empty only for an element without children. *)
Theorem load_registers_one_per_element (peripheral_name : string)
  (registers : Xml.Element) (output : list Register.t) :
  load_registers peripheral_name (Some registers) = Ok output ->
  List.length output = List.length (Xml.children registers)
  /\ Forall (fun r => Register.reserved r = false) output
  /\ (output = [] <-> Xml.children registers = []).
Proof. exact (load_registers_elements peripheral_name registers output). Qed.

Lemma load_registers_one_per_element_witness :
  exists output,
    load_registers "TIMER0" (Xml.find "registers" timer_good) = Ok output
    /\ List.length output = 1%nat
    /\ Forall (fun r => Register.reserved r = false) output.
Proof.
  eexists. split; [vm_compute; reflexivity|].
  match goal with
  | |- List.length ?o = _ /\ _ =>
      pose proof (load_registers_one_per_element "TIMER0"
                    (Xml.Elem "registers" [] None
                       [register_xml "CTRL" "0x0" [field_4_4]])
                    o ltac:(vm_compute; reflexivity)) as (Hlen & Hres & _)
  end.
  split; [exact Hlen | exact Hres].
Defined.

(** X5.  A peripheral is skipped, [load_peripheral] returning [None],
    exactly when its [registers] element has no children; the loop of
    [main] then leaves its state as it was. *)
Theorem load_peripheral_skips_empty (peripheral registers : Xml.Element) :
  Xml.find "registers" peripheral = Some registers ->
  (load_peripheral peripheral = Ok None <-> Xml.children registers = [])
  /\ (Xml.children registers = [] ->
      forall args output st,
        is_derived peripheral = false ->
        main_step args output st peripheral = Ok st).
Proof.
  intros Hfind.
  assert (Hempty : Xml.children registers = [] ->
                   load_peripheral peripheral = Ok None).
  { intros E. unfold load_peripheral, load_registers. rewrite Hfind, E.
    reflexivity. }
  split; [split; [|exact Hempty]|].
  - unfold load_peripheral. rewrite Hfind.
    destruct (load_registers (get_xml_text "name" peripheral) (Some registers))
      as [output|e] eqn:E; [|discriminate].
    destruct output; [|discriminate]. intros _.
    now apply (load_registers_elements _ _ _ E).
  - intros E args output st Hder. unfold main_step.
    now rewrite Hder, (Hempty E).
Qed.

Lemma load_peripheral_skips_empty_witness :
  load_peripheral uart_empty = Ok None
  /\ main_step run_args true (start []) uart_empty = Ok (start []).
Proof.
  destruct (load_peripheral_skips_empty uart_empty
              (Xml.Elem "registers" [] None []) eq_refl) as [Hiff Hstep].
  split; [now apply Hiff | now apply Hstep].
Defined.

(** X6.  A peripheral the loader returns has at least one register; its
    registers are the parsed ones, none reserved, and reserved ones the
    normaliser added, sorted by offset; its [realname] is the name read
    from the document, its name the canonical name of that, and it has
    no path yet. *)
Theorem load_peripheral_invariants (peripheral : Xml.Element)
  (p : Peripheral.t) :
  load_peripheral peripheral = Ok (Some p) ->
  Peripheral.registers p <> []
  /\ ascending Register.offset (Peripheral.registers p)
  /\ (exists parsed added,
        load_registers (get_xml_text "name" peripheral)
          (Xml.find "registers" peripheral) = Ok parsed
        /\ Permutation (Peripheral.registers p) (parsed ++ added)
        /\ Forall (fun r => Register.reserved r = false) parsed
        /\ Forall is_reserved_register added)
  /\ Peripheral.realname p = get_xml_text "name" peripheral
  /\ Peripheral.name p = Peripheral.canonical_name (Peripheral.realname p)
  /\ Peripheral.description p = get_xml_text "description" peripheral
  /\ Peripheral.path p = "".
Proof.
  unfold load_peripheral.
  destruct (load_registers (get_xml_text "name" peripheral)
              (Xml.find "registers" peripheral)) as [parsed|e] eqn:E;
    [|discriminate].
  destruct parsed as [|r0 parsed']; [discriminate|].
  intros [= <-]. cbn [Peripheral.new Peripheral.registers Peripheral.realname
    Peripheral.name Peripheral.description Peripheral.path].
  split; [now apply normalize_registers_nonempty|].
  split; [apply normalize_registers_sorted|].
  split; [|repeat split].
  destruct (normalize_registers_adds_reserved (r0 :: parsed'))
    as (added & Hp & Hadded).
  exists (r0 :: parsed'), added. split; [reflexivity|]. split; [exact Hp|].
  split; [|exact Hadded].
  destruct (Xml.find "registers" peripheral) as [registers|] eqn:Ef;
    [|discriminate].
  now apply (load_registers_elements _ _ _ E).
Qed.

Lemma load_peripheral_invariants_witness :
  exists p,
    load_peripheral uart_at_4 = Ok (Some p)
    /\ Peripheral.registers p <> []
    /\ ascending Register.offset (Peripheral.registers p)
    /\ Peripheral.name p = Peripheral.canonical_name (Peripheral.realname p)
    /\ Peripheral.path p = "".
Proof.
  eexists. split; [vm_compute; reflexivity|].
  match goal with
  | |- Peripheral.registers ?p <> [] /\ _ =>
      pose proof (load_peripheral_invariants uart_at_4 p
                    ltac:(vm_compute; reflexivity))
        as (Hne & Hasc & _ & _ & Hname & _ & Hpath)
  end.
  split; [exact Hne|]. split; [exact Hasc|].
  split; [exact Hname | exact Hpath].
Defined.

(** X7.  Register normalisation keeps every register it is given, adds
    reserved registers only, these without fields or name, and leaves
    the list sorted by offset; this for every list of registers. *)
Theorem normalize_registers_keeps_and_sorts (registers : list Register.t) :
  ascending Register.offset (normalize_registers registers)
  /\ exists added,
       Permutation (normalize_registers registers) (registers ++ added)
       /\ Forall is_reserved_register added.
Proof.
  split; [apply normalize_registers_sorted
         | apply normalize_registers_adds_reserved].
Qed.

(** X8.  When the registers have a size of at least 1, share no
    address, start at offsets of at least 0 and one of them sits at
    offset 0, the normalised registers tile the addresses from 0 to the
    end of the last: each starts where the one before it ends, in the
    arithmetic of the code, which adds a size to an offset. *)
Theorem normalize_registers_tiles_from_0 (registers : list Register.t) :
  Forall (fun r => 0 <= Register.offset r /\ 1 <= Register.size r) registers ->
  Exists (fun r => Register.offset r = 0) registers ->
  pairwise_disjoint (map span registers) ->
  exists hi,
    tiles 0 hi (map span (normalize_registers registers))
    /\ covers 0 hi (map span (normalize_registers registers)).
Proof.
  intros Hpos Hzero Hdis.
  destruct (normalize_registers_tiles registers Hpos Hzero Hdis) as (hi & H).
  exists hi. split; [exact H | now apply tiles_covers].
Qed.

Lemma normalize_registers_tiles_from_0_witness :
  map (fun r => (Register.offset r, Register.size r, Register.reserved r))
    (normalize_registers two_registers)
  = [(0, 4, false); (4, 4, true); (8, 4, false)]
  /\ exists hi,
       tiles 0 hi (map span (normalize_registers two_registers))
       /\ covers 0 hi (map span (normalize_registers two_registers)).
Proof.
  split; [reflexivity|].
  apply (normalize_registers_tiles_from_0 two_registers).
  - unfold two_registers.
    constructor; [cbn; lia|]. constructor; [cbn; lia | constructor].
  - unfold two_registers. apply Exists_cons_tl. now apply Exists_cons_hd.
  - cbn [two_registers map pairwise_disjoint].
    split; [|split; [constructor | exact I]].
    constructor; [|constructor]. unfold disjoint, field_end. cbn. lia.
Defined.

(** X9.  Field normalisation keeps every field it is given and adds
    reserved fields only, with an empty name and read-only; this for
    every list of fields, overlapping or not. *)
Theorem normalize_fields_keeps_fields (fields : list Field.t) :
  exists synthesized,
    Permutation (normalize_fields fields) (fields ++ synthesized)
    /\ Forall is_reserved synthesized.
Proof. exact (normalize_fields_adds_reserved fields). Qed.

(** X10.  A list of fields that tiles [[0, 32)] is left as it is. *)
Theorem normalize_fields_fixed_point (fields : list Field.t) :
  tiles 0 32 fields -> normalize_fields fields = fields.
Proof. exact (normalize_fields_fixed fields). Qed.

Lemma normalize_fields_fixed_point_witness :
  normalize_fields [Field.new "LO" "" 0 16 false; Field.new "HI" "" 16 16 true]
  = [Field.new "LO" "" 0 16 false; Field.new "HI" "" 16 16 true].
Proof.
  apply normalize_fields_fixed_point.
  cbn [tiles]. unfold field_end. cbn. repeat split; lia.
Defined.

(** X11.  On fields with offsets of at least 0 and widths of at least
    1 that end by bit 32 and share no bit, normalising twice gives what
    normalising once gives. *)
Theorem normalize_fields_idempotent (fields : list Field.t) :
  fields <> [] ->
  Forall (fun f => 0 <= Field.offset f /\ 1 <= Field.width f) fields ->
  Forall (fun f => field_end f <= 32) fields ->
  pairwise_disjoint fields ->
  normalize_fields (normalize_fields fields) = normalize_fields fields.
Proof.
  intros Hne Hpos Hin Hdis. apply normalize_fields_fixed.
  now apply normalize_fields_tiles.
Qed.

Lemma normalize_fields_idempotent_witness :
  normalize_fields (normalize_fields en_and_mode) = normalize_fields en_and_mode.
Proof.
  apply normalize_fields_idempotent.
  - discriminate.
  - unfold en_and_mode, mode_field.
    constructor; [cbn; lia|]. constructor; [cbn; lia | constructor].
  - unfold en_and_mode, mode_field, field_end.
    constructor; [cbn; lia|]. constructor; [cbn; lia | constructor].
  - unfold en_and_mode, mode_field. cbn [pairwise_disjoint].
    split; [|split; [constructor | exact I]].
    constructor; [|constructor]. unfold disjoint, field_end. cbn. lia.
Defined.

(** X12.  The mask of a register, built by the loop over its named
    fields, has bit [b] set exactly when [b] lies in a named field;
    this when no named field with a bit to set starts below bit 0. *)
Theorem register_mask_bits (register : Register.t) :
  Forall shiftable (named_fields register) ->
  exists mask,
    or_fields_bits 0 (named_fields register) = Ok mask
    /\ forall b, 0 <= b ->
         Z.testbit mask b = existsb (holds b) (named_fields register).
Proof.
  intros H.
  destruct (or_fields_bits_value 0 (named_fields register) H)
    as (m & Hm & Hbits).
  exists m. split; [exact Hm|]. intros b Hb.
  now rewrite (Hbits b Hb), Z.bits_0.
Qed.

Lemma register_mask_bits_witness :
  exists mask,
    or_fields_bits 0 (named_fields ctrl_register) = Ok mask
    /\ forall b, 0 <= b ->
         Z.testbit mask b = existsb (holds b) (named_fields ctrl_register).
Proof.
  apply (register_mask_bits ctrl_register).
  constructor; [right; cbn; lia | constructor].
Defined.

(** X13.  [print_registers] either returns one text per register with
    fields, or raises [ValueError]; it raises exactly when a named
    field at least one bit wide starts below bit 0. *)
Theorem print_registers_returns_or_raises (p : Peripheral.t) (v : Z)
  (out : stdout) :
  (Exists
     (fun r =>
        Exists (fun f => 1 <= Field.width f /\ Field.offset f < 0)
          (named_fields r))
     (Peripheral.registers p)
   /\ print_registers p v out = Raise ValueError)
  \/ (Forall (fun r => Forall shiftable (named_fields r))
        (Peripheral.registers p)
      /\ exists unions out',
           print_registers p v out = Ok (unions, out')
           /\ List.length unions
              = List.length (with_fields (Peripheral.registers p))).
Proof.
  destruct (Forall_Exists_dec
              (fun r => Forall shiftable (named_fields r))
              (fun r => Forall_dec shiftable shiftable_dec (named_fields r))
              (Peripheral.registers p)) as [Hall|Hex].
  - right. split; [exact Hall|].
    destruct (union_steps_ok p v (Peripheral.registers p) [] out Hall)
      as (unions & out' & Hok & Hlen).
    exists unions, out'. split; [exact Hok | exact Hlen].
  - left.
    assert (Hbad : Exists
              (fun r =>
                 Exists (fun f => 1 <= Field.width f /\ Field.offset f < 0)
                   (named_fields r)) (Peripheral.registers p)).
    { eapply Exists_impl; [|exact Hex]. cbn beta. intros r Hr.
      apply neg_Forall_Exists_neg in Hr; [|apply shiftable_dec].
      eapply Exists_impl; [|exact Hr]. cbn beta. unfold shiftable.
      intros f Hf. lia. }
    split; [exact Hbad | now apply print_registers_bad_field].
Qed.





(** X16.  Two peripherals that [__eq__] finds equal are rendered to
    the same text, whatever their instance names and paths. *)
Theorem equal_peripherals_render_alike (p q : Peripheral.t) (v1 v2 : Z)
  (o1 o2 : stdout) :
  Peripheral.eq p q = true ->
  returned (print_registers p v1 o1) = returned (print_registers q v2 o2)
  /\ fst (print_peripheral p v1 o1) = fst (print_peripheral q v2 o2).
Proof. exact (render_equal p q v1 v2 o1 o2). Qed.

Lemma equal_peripherals_render_alike_witness :
  Peripheral.eq uart uart1_same = true
  /\ returned (print_registers uart 0 [])
     = returned (print_registers uart1_same 3 [])
  /\ fst (print_peripheral uart 0 []) = fst (print_peripheral uart1_same 3 []).
Proof.
  split; [reflexivity|].
  apply equal_peripherals_render_alike. reflexivity.
Defined.

(** X17.  What a run of the loop accounts for: the peripherals
    appended are those [load_peripheral] gives for the elements that
    are not derived and have registers, one for each, in the order of
    the document and each with a path; [derived] grows by the number of
    derived elements; with output, one file is written per accepted
    peripheral, at its path and in the same order, and the counts grow
    by the registers and fields of the accepted peripherals; without
    output no file is written and the counts stay as they were. *)
Theorem main_loop_accounting (args : Args.t) (output : bool)
  (l : list Xml.Element) (st st' : run) :
  main_loop args output st l = Ok st' ->
  exists new,
    peripherals st' = (peripherals st ++ new)%list
    /\ Forall2 routed_from new (loads l)
    /\ derived st' = derived st + Z.of_nat (List.length (filter is_derived l))
    /\ (List.length new
        <= List.length (filter (fun x => negb (is_derived x)) l))%nat
    /\ if output
       then
         map fst (files st')
         = (map fst (files st) ++ map Peripheral.path new)%list
         /\ register_count st'
            = register_count st + total Peripheral.register_count new
         /\ field_count st' = field_count st + total Peripheral.field_count new
       else
         files st' = files st
         /\ register_count st' = register_count st
         /\ field_count st' = field_count st
         /\ out st' = out st.
Proof. exact (main_loop_accounts args output l st st'). Qed.

Lemma main_loop_accounting_witness :
  exists st',
    main_loop run_args false (start [])
      [uart_at_4; uart_derived; uart_empty; timer_good] = Ok st'
    /\ map Peripheral.realname (peripherals st') = ["UART0"; "TIMER0"]
    /\ Forall2 routed_from (peripherals st')
         (loads [uart_at_4; uart_derived; uart_empty; timer_good])
    /\ derived st' = 1
    /\ files st' = [] /\ register_count st' = 0 /\ field_count st' = 0.
Proof.
  eexists. split; [vm_compute; reflexivity|].
  match goal with
  | |- map _ (peripherals ?s) = _ /\ _ =>
      pose proof (main_loop_accounting run_args false
                    [uart_at_4; uart_derived; uart_empty; timer_good]
                    (start []) s ltac:(vm_compute; reflexivity))
        as (new & Hp & Hord & Hd & _ & Hf & Hr & Hc & _)
  end.
  split; [reflexivity|].
  split; [cbn [start peripherals app] in Hp; rewrite Hp; exact Hord|].
  split; [exact Hd|].
  split; [exact Hf|]. split; [exact Hr | exact Hc].
Defined.

(** X18.  Every pair of paths the loop records as a duplicate belongs
    to two accepted peripherals of one canonical name that [__eq__]
    finds different; a run keeps this true. *)
Theorem main_loop_duplicates_sound (args : Args.t) (output : bool)
  (l : list Xml.Element) (st st' : run) :
  duplicates_sound st -> main_loop args output st l = Ok st' ->
  duplicates_sound st'.
Proof. exact (main_loop_duplicates args output l st st'). Qed.

Lemma main_loop_duplicates_sound_witness :
  exists st',
    main_loop run_args true (start []) [uart_at_4; uart1_divergent] = Ok st'
    /\ List.length (duplicates st') = 1%nat
    /\ duplicates_sound st'.
Proof.
  eexists. split; [vm_compute; reflexivity|]. split; [reflexivity|].
  eapply (main_loop_duplicates_sound run_args true
            [uart_at_4; uart1_divergent] (start [])).
  - constructor.
  - vm_compute. reflexivity.
Defined.

(** X19.  The mask of a loaded register is that of the fields parsed
    for it: when the fields of a register are the normalised parsed
    fields, and no named parsed field with a bit to set starts below
    bit 0, the mask loop returns a value whose bit [b] is set exactly
    when [b] lies in a named parsed field; the reserved fields the
    normaliser adds contribute no bit. *)
Theorem register_mask_of_parsed_fields (register : Register.t)
  (fields : list Field.t) :
  Register.fields register = normalize_fields fields ->
  Forall shiftable (filter is_named fields) ->
  exists mask,
    or_fields_bits 0 (named_fields register) = Ok mask
    /\ forall b, 0 <= b ->
         Z.testbit mask b = existsb (holds b) (filter is_named fields).
Proof.
  exact (mask_of_parsed register fields).
Qed.

Lemma register_mask_of_parsed_fields_witness :
  exists mask,
    or_fields_bits 0 (named_fields en_register) = Ok mask
    /\ forall b, 0 <= b ->
         Z.testbit mask b = existsb (holds b) (filter is_named [en_field]).
Proof.
  apply (register_mask_of_parsed_fields en_register [en_field]).
  - reflexivity.
  - cbn. constructor; [right; cbn; lia | constructor].
Defined.

(** X20.  A [field] element with a [bitOffset] and a [bitWidth] child
    whose stripped texts are decimal numerals loads as the field with
    that offset and that width, whatever its [bitRange] child says;
    the field is read-only exactly when it has an [access] child whose
    stripped text is [read-only]. *)
Theorem load_field_reads_offset_and_width (field o w : Xml.Element)
  (to tw : string) (a b : list ascii) (ro : bool) :
  Xml.find "bitOffset" field = Some o ->
  Xml.find "bitWidth" field = Some w ->
  Xml.text o = Some to -> Xml.text w = Some tw ->
  Py.strip to = str a -> Py.strip tw = str b ->
  a <> [] -> b <> [] ->
  forallb is_digit a = true -> forallb is_digit b = true ->
  match Xml.find "access" field with
  | None => ro = false
  | Some access_xml =>
      exists t,
        Xml.text access_xml = Some t
        /\ ro = String.eqb (Py.strip t) "read-only"
  end ->
  load_field field
  = Next (Field.new (get_xml_text "name" field)
            (get_xml_text "description" field) (decimal a) (decimal b) ro).
Proof.
  exact (load_field_pair field o w to tw a b ro).
Qed.

Lemma load_field_reads_offset_and_width_witness :
  load_field field_ro = Next (Field.new "MODE" "Mode" 4 2 true).
Proof.
  apply (load_field_reads_offset_and_width field_ro
           (leaf "bitOffset" " 4") (leaf "bitWidth" "2 ") " 4" "2 "
           ["4"%char] ["2"%char] true);
    try reflexivity; try discriminate.
  exists " read-only ". split; reflexivity.
Defined.

(** X21.  A register element without a [size] child, or without an
    [addressOffset] child, ends the loading of its peripheral with
    [ValueError], when the registers before it load: the missing text
    is read as the empty string, which is no hexadecimal numeral. *)
Theorem register_without_size_raises
  (peripheral registers register : Xml.Element)
  (before after : list Xml.Element) (loaded : list Register.t) :
  Xml.find "registers" peripheral = Some registers ->
  Xml.children registers = (before ++ register :: after)%list ->
  for_each load_register before = Next loaded ->
  Xml.find "size" register = None
  \/ Xml.find "addressOffset" register = None ->
  load_peripheral peripheral = Raise ValueError.
Proof.
  exact (load_peripheral_without_size peripheral registers register
           before after loaded).
Qed.

Lemma register_without_size_raises_witness :
  load_peripheral uart_without_size = Raise ValueError.
Proof.
  apply (register_without_size_raises uart_without_size
           (Xml.Elem "registers" [] None
              [register_xml "CTRL" "0x0" [field_4_4]; register_without_size])
           register_without_size
           [register_xml "CTRL" "0x0" [field_4_4]] []
           [Register.new 32 0 "CTRL" "Control" "uint32_t"
              (normalize_fields [Field.new "MODE" "Mode" 4 4 false]) false 0]).
  - reflexivity.
  - reflexivity.
  - vm_compute. reflexivity.
  - left. reflexivity.
Defined.
